(** * move_cats_to_bottom: the category mover of [MoveCatsBot]

    A shallow embedding of the text analysis and rewrite performed by
    [MoveCatsBot.move_cats] (src/move_cats_to_bottom.py) together with the
    helpers it calls, [split_into_cats] and [find_cat], and of the Python
    string primitives they rely on ([str.split], [str.replace],
    [str.strip], [str.rstrip], [re.match]).

    A Python [str] is a sequence of Unicode code points; it is modelled as
    a list of code points of type [N]. *)

From Stdlib Require Import String Ascii.
From Stdlib Require Import List NArith Bool Arith Lia.
Import ListNotations.
Local Open Scope N_scope.
Local Open Scope list_scope.

(** ** Strings *)

Definition str := list N.

(** Literals of ASCII text are written as Rocq strings. *)
Definition lit (s : string) : str :=
  map N_of_ascii (list_ascii_of_string s).

Definition nl : N := 10.
Definition lbracket : N := 91.
Definition rbracket : N := 93.

(** The fixed strings of the source. *)
Definition cat_close : str := Eval cbv in lit "]]".
Definition cat_open : str := Eval cbv in lit "[[Category:".

Definition str_eqb (a b : str) : bool :=
  if list_eq_dec N.eq_dec a b then true else false.

(** [unlines] joins lines with a newline, as the page text holds them. *)
Fixpoint unlines (ls : list str) : str :=
  match ls with
  | [] => []
  | [l] => l
  | l :: rest => l ++ nl :: unlines rest
  end.

(** ** Python string primitives *)

(** [s.startswith(p)] *)
Fixpoint starts_with (p s : str) : bool :=
  match p, s with
  | [], _ => true
  | _ :: _, [] => false
  | a :: p', b :: s' => (a =? b) && starts_with p' s'
  end.

(** [s.split(sep)] for a non-empty separator: the text is cut at the
    occurrences of [sep] found from left to right, an occurrence never
    overlapping the one before it.  [skip] counts the characters of the
    occurrence in progress that are still to be passed over.  The result,
    never empty, is returned as its first piece and the pieces after it. *)
Fixpoint split_from (sep : str) (skip : nat) (s : str) : str * list str :=
  match s with
  | [] => ([], [])
  | c :: s' =>
      match skip with
      | S k => split_from sep k s'
      | O =>
          if starts_with sep s
          then ([], let '(p, ps) := split_from sep (length sep - 1) s' in p :: ps)
          else let '(p, ps) := split_from sep 0 s' in (c :: p, ps)
      end
  end.

Definition split (sep s : str) : list str :=
  let '(p, ps) := split_from sep 0 s in p :: ps.

(** [s.replace(old, new)]: every occurrence of [old], found from left to
    right without overlap, is replaced by [new].  With an empty [old]
    Python inserts [new] before every character and at the end. *)
Fixpoint replace_from (old new : str) (skip : nat) (s : str) : str :=
  match s with
  | [] => []
  | c :: s' =>
      match skip with
      | S k => replace_from old new k s'
      | O =>
          if starts_with old s
          then new ++ replace_from old new (length old - 1) s'
          else c :: replace_from old new 0 s'
      end
  end.

Definition replace (old new s : str) : str :=
  match old with
  | [] => new ++ flat_map (fun c => c :: new) s
  | _ :: _ => replace_from old new 0 s
  end.

(** [str.isspace] on one code point, the set [str.strip()] removes. *)
Definition is_space (c : N) : bool :=
  ((9 <=? c) && (c <=? 13)) || ((28 <=? c) && (c <=? 32))
  || (c =? 133) || (c =? 160) || (c =? 5760)
  || ((8192 <=? c) && (c <=? 8202))
  || (c =? 8232) || (c =? 8233) || (c =? 8239) || (c =? 8287)
  || (c =? 12288).

Fixpoint lstrip_by (f : N -> bool) (s : str) : str :=
  match s with
  | [] => []
  | c :: s' => if f c then lstrip_by f s' else s
  end.

Definition rstrip_by (f : N -> bool) (s : str) : str :=
  rev (lstrip_by f (rev s)).

(** [s.strip()] *)
Definition strip (s : str) : str :=
  rstrip_by is_space (lstrip_by is_space s).

(** [s.rstrip('\n')] *)
Definition rstrip_nl (s : str) : str :=
  rstrip_by (N.eqb nl) s.

(** ** [find_cat]

    [re.match] of a pattern of four groups against [line], and its
    group 2.  Group 1 and group 4 are a greedy dot-star; group 2 is the
    literal [[[Category:], then group 3, a greedy star of the class of
    all characters but the two brackets, then the literal []]].
    [re.match] anchors the pattern at the start of [line] only.  Group 1
    is greedy and the dot matches everything but a newline, so the engine
    tries the start positions of group 2 from the end of the first line of
    [line] back to position 0 and keeps the first one where group 2
    matches; group 4 matches whatever follows on that line.  Within
    group 2 the star takes the longest run of non-bracket characters:
    backing off from it leaves a non-bracket where []]] is required. *)

Definition is_bracket (c : N) : bool := (c =? lbracket) || (c =? rbracket).

(** Group 3 at the head of [s]: the run and what follows it. *)
Fixpoint span_name (s : str) : str * str :=
  match s with
  | [] => ([], [])
  | c :: s' =>
      if is_bracket c then ([], s)
      else let '(x, r) := span_name s' in (c :: x, r)
  end.

(** Group 2 matched at the head of [s]. *)
Definition match_cat (s : str) : option str :=
  if starts_with cat_open s then
    let '(name, rest) := span_name (skipn (length cat_open) s) in
    if starts_with cat_close rest
    then Some (cat_open ++ name ++ cat_close)
    else None
  else None.

Fixpoint find_cat (line : str) : option str :=
  match line with
  | [] => None
  | c :: rest =>
      match (if c =? nl then None else find_cat rest) with
      | Some category => Some category
      | None => match_cat line
      end
  end.

(** ** [split_into_cats] *)

Definition split_into_cats (line : str) : list str :=
  map (fun proto_cat => proto_cat ++ cat_close) (split cat_close line).

(** ** [move_cats]

    The loop state: the flag [should_be_moving], the list
    [detected_categories] and the text of the page object, which the loop
    rewrites while it scans the lines split off before the loop. *)

Record scan_state := {
  should_be_moving : bool;
  detected_categories : list str;
  page_text : str
}.

(** [line.strip() != detected_category]; a string differs from [None]. *)
Definition differs (s : str) (detected_category : option str) : bool :=
  match detected_category with
  | None => true
  | Some category => negb (str_eqb s category)
  end.

(** The body of the inner loop, for one fragment but the last. *)
Definition frag_step (line : str) (st : scan_state) (potential_cat : str)
  : scan_state :=
  let detected_category := find_cat potential_cat in
  let moving :=
    if differs (strip line) detected_category && negb (should_be_moving st)
    then true else should_be_moving st in
  match detected_category with
  | Some category =>
      if moving
      then {| should_be_moving := moving;
              detected_categories := detected_categories st ++ [category];
              page_text := replace category [] (page_text st) |}
      else {| should_be_moving := moving;
              detected_categories := detected_categories st;
              page_text := page_text st |}
  | None =>
      {| should_be_moving := moving;
         detected_categories := detected_categories st;
         page_text := page_text st |}
  end.

(** The check made on the last fragment after the inner loop. *)
Definition tail_step (st : scan_state) (last_cat : str) : scan_state :=
  if negb (str_eqb (strip last_cat) cat_close) && negb (should_be_moving st)
  then {| should_be_moving := true;
          detected_categories := detected_categories st;
          page_text := page_text st |}
  else st.

(** The body of the outer loop, for one line. *)
Definition line_step (st : scan_state) (line : str) : scan_state :=
  let potential_cats := split_into_cats line in
  tail_step (fold_left (frag_step line) (removelast potential_cats) st)
            (last potential_cats []).

Definition init_state (text : str) : scan_state :=
  {| should_be_moving := false;
     detected_categories := [];
     page_text := text |}.

(** The outer loop over [reversed(page_lines)]. *)
Definition scan (text : str) : scan_state :=
  fold_left line_step (rev (split [nl] text)) (init_state text).

(** The text of the page object when [move_cats] returns. *)
Definition move_text (text : str) : str :=
  let st := scan text in
  let stripped := rstrip_nl (page_text st) in
  if (0 <? length (detected_categories st))%nat
  then fold_left (fun t cat => t ++ nl :: cat) (detected_categories st) stripped
  else stripped.

(** Whether [move_cats] calls [page.save]. *)
Definition saves (text : str) : bool :=
  (0 <? length (detected_categories (scan text)))%nat.

(** The text the wiki holds for the page once [move_cats] has run on a
    page holding [text]: the page object's text if it was saved. *)
Definition move_cats (text : str) : str :=
  if saves text then move_text text else text.

(** * Notions for the statements *)

(** ** Shapes of text *)

Definition no_bracket (s : str) : bool :=
  forallb (fun c => negb (is_bracket c)) s.

Definition no_open (s : str) : bool :=
  forallb (fun c => negb (c =? lbracket)) s.

Definition no_close (s : str) : bool :=
  forallb (fun c => negb (c =? rbracket)) s.

Definition no_newline (s : str) : bool :=
  forallb (fun c => negb (c =? nl)) s.

Definition all_space (s : str) : bool := forallb is_space s.

(** The category marker of name [name]. *)
Definition marker (name : str) : str := cat_open ++ name ++ cat_close.

Definition cat_begin : str := Eval cbv in lit "[[".
Definition cat_prefix : str := Eval cbv in lit "Category:".

(** The bracket pair around [body]; the marker of name [name] is the
    pair around [Category:] followed by [name]. *)
Definition bracketed (body : str) : str := cat_begin ++ body ++ cat_close.

(** A bracket pair without brackets inside. *)
Definition is_pair (d : str) : Prop :=
  exists body, d = bracketed body /\ no_bracket body = true.

(** A category marker found on a line: its name holds no bracket and no
    newline. *)
Definition is_cat (d : str) : Prop :=
  exists name,
    d = marker name /\ no_bracket name = true /\ no_newline name = true.

(** [cons_hd c ls] puts the character [c] in front of the first of the
    pieces [ls]. *)
Definition cons_hd (c : N) (l : list str) : list str :=
  match l with
  | [] => [[c]]
  | h :: t => (c :: h) :: t
  end.

(** ** The scan as a sequence of steps

    The two nested loops visit, for each line from the last to the first,
    its fragments but the last and then its last fragment.  [scan_events]
    lists these visits in order and [scan_trace] the states the loop goes
    through, the initial state first. *)

Inductive event :=
| Frag (line potential_cat : str)
| Tail (last_cat : str).

Definition events_of_line (line : str) : list event :=
  let potential_cats := split_into_cats line in
  map (Frag line) (removelast potential_cats)
  ++ [Tail (last potential_cats [])].

Definition event_step (st : scan_state) (ev : event) : scan_state :=
  match ev with
  | Frag line potential_cat => frag_step line st potential_cat
  | Tail last_cat => tail_step st last_cat
  end.

Definition scan_events (text : str) : list event :=
  flat_map events_of_line (rev (split [nl] text)).

Fixpoint trace (st : scan_state) (evs : list event) : list scan_state :=
  st :: match evs with
        | [] => []
        | ev :: evs' => trace (event_step st ev) evs'
        end.

Definition scan_trace (text : str) : list scan_state :=
  trace (init_state text) (scan_events text).

(** The number of changes from [false] to [true], and from [true] to
    [false], along a sequence of flags. *)
Fixpoint flips (bs : list bool) : nat :=
  match bs with
  | a :: (b :: _) as rest => (if negb a && b then 1 else 0) + flips rest
  | _ => 0
  end.

Fixpoint resets (bs : list bool) : nat :=
  match bs with
  | a :: (b :: _) as rest => (if a && negb b then 1 else 0) + resets rest
  | _ => 0
  end.

(** ** The extractor as the specification words it

    Modelled on the words of the specification of the extractor, for
    comparison with [find_cat]: the first marker of the line, a marker
    being [[[Category:], one or more characters that are no bracket,
    and []]]. *)

Definition match_cat_spec (s : str) : option str :=
  match match_cat s with
  | Some m =>
      if (length cat_open + length cat_close <? length m)%nat
      then Some m else None
  | None => None
  end.

Fixpoint first_cat_spec (line : str) : option str :=
  match line with
  | [] => None
  | _ :: rest =>
      match match_cat_spec line with
      | Some m => Some m
      | None => first_cat_spec rest
      end
  end.

(** The text left when the markers [ds] are removed one after the
    other, as the loop does on the page text. *)
Definition remove_all (ds : list str) (t : str) : str :=
  fold_left (fun t d => replace d [] t) ds t.

(** An event of the scan of lines without newlines. *)
Definition line_event (ev : event) : Prop :=
  match ev with
  | Frag _ pc => no_newline pc = true
  | Tail _ => True
  end.

(** The block [move_cats] appends: each category after a newline. *)
Definition block (ds : list str) : str :=
  flat_map (fun cat => nl :: cat) ds.

(** ** Lines of simple bracket pairs

    A line is simple when its brackets come in pairs [[[ ... ]]] that are
    closed on the line and hold no bracket inside.  [simple_from] reads a
    line with the four states of that shape; a simple line is a sequence
    of segments, each a text without brackets followed by a bracket pair,
    and a last text without brackets. *)

Inductive mode := Outside | Opening | Inside | Closing.

Fixpoint simple_from (m : mode) (s : str) : bool :=
  match s with
  | [] => match m with Outside => true | _ => false end
  | c :: s' =>
      match m with
      | Outside =>
          if c =? lbracket then simple_from Opening s'
          else if c =? rbracket then false
          else simple_from Outside s'
      | Opening => if c =? lbracket then simple_from Inside s' else false
      | Inside =>
          if c =? rbracket then simple_from Closing s'
          else if c =? lbracket then false
          else simple_from Inside s'
      | Closing => if c =? rbracket then simple_from Outside s' else false
      end
  end.

Definition simple_line (line : str) : bool := simple_from Outside line.

Definition simple_doc (text : str) : bool :=
  forallb simple_line (split [nl] text).

(** A segment: the text before a bracket pair and the text inside it. *)
Definition seg := (str * str)%type.

Definition frag_of (sg : seg) : str := fst sg ++ bracketed (snd sg).

Fixpoint render (segs : list seg) (tail : str) : str :=
  match segs with
  | [] => tail
  | sg :: rest => frag_of sg ++ render rest tail
  end.

Definition seg_ok (sg : seg) : bool :=
  no_bracket (fst sg) && no_bracket (snd sg).

Definition line_ok (segs : list seg) (tail : str) : bool :=
  forallb seg_ok segs && no_bracket tail.

(** [push p] puts the text [p] in front of a parsed line. *)
Definition push (p : str) (l : list seg * str) : list seg * str :=
  match l with
  | ([], t) => ([], p ++ t)
  | ((p', b) :: r, t) => ((p ++ p', b) :: r, t)
  end.

(** The parsed line without the bracket pairs around [body]. *)
Fixpoint del_body (body : str) (segs : list seg) (tail : str)
  : list seg * str :=
  match segs with
  | [] => ([], tail)
  | (p, b) :: rest =>
      if str_eqb b body
      then push p (del_body body rest tail)
      else let '(segs', tail') := del_body body rest tail in
           ((p, b) :: segs', tail')
  end.

(** ** What a line contributes to the scan *)

(** The categories the fragments of a line yield, in order. *)
Definition yield (f : str) : list str :=
  match find_cat f with
  | Some c => [c]
  | None => []
  end.

Definition cats_of (line : str) : list str :=
  flat_map yield (removelast (split_into_cats line)).

(** Whether a line met in the trailing state ends it: one of the two
    tests of the loop body holds. *)
Definition flips_line (line : str) : bool :=
  existsb (fun f => differs (strip line) (find_cat f))
    (removelast (split_into_cats line))
  || negb (str_eqb (strip (last (split_into_cats line) [])) cat_close).

(** The lines of the trailing region: whitespace, or one category
    marker between whitespace. *)
Inductive te_shape : str -> Prop :=
| te_blank (l : str) : all_space l = true -> te_shape l
| te_cat (a b z : str) :
    all_space a = true -> all_space z = true -> no_newline a = true ->
    no_bracket b = true -> starts_with cat_prefix b = true ->
    te_shape (a ++ bracketed b ++ z).

(** A simple line of the page, with its segments. *)
Definition parsed (line : str) : Prop :=
  exists segs tail,
    line = render segs tail /\ line_ok segs tail = true
    /\ no_newline line = true.

(** The category markers among the bracket pairs of a parsed line. *)
Definition seg_cats (segs : list seg) : list str :=
  flat_map (fun sg => if starts_with cat_prefix (snd sg)
                      then [bracketed (snd sg)] else []) segs.

(** ** Marker occurrences and the trailing region *)

(** Every category marker a text holds, from left to right: the
    positions where group 2 of the pattern of [find_cat] matches. *)
Fixpoint all_cats (s : str) : list str :=
  match s with
  | [] => []
  | _ :: rest =>
      match match_cat s with
      | Some m => m :: all_cats rest
      | None => all_cats rest
      end
  end.

(** The lines the scan meets from the first one that ends the trailing
    state on. *)
Fixpoint drop_trailing (ls : list str) : list str :=
  match ls with
  | [] => []
  | l :: rest => if flips_line l then ls else drop_trailing rest
  end.

(** ** [is_reference_line]

    [str.lower] follows the Unicode case tables, which are no part of the
    source; [is_reference_line] takes it as the parameter [lower]. *)

Definition reflist : str := Eval cbv in lit "{{reflist".

Definition valid_reference_titles : list str :=
  [lit "==references=="; lit "== references==";
   lit "==references =="; lit "== references =="].

(** [re.match] of the pattern of three groups, a dot-star, the literal
    [{{reflist] and a dot-star: the literal starts at a position of the
    first line of [line]. *)
Fixpoint match_reflist (line : str) : bool :=
  match line with
  | [] => false
  | c :: rest =>
      (if c =? nl then false else match_reflist rest)
      || starts_with reflist line
  end.

Definition is_reference_line (lower : str -> str) (line : str) : bool :=
  let line := lower line in
  if existsb (str_eqb line) valid_reference_titles then true
  else match_reflist line.

(** ** The batch runner

    The wiki is read and written through page objects: [page.text] is
    the text the wiki holds under the title of the page, the empty string
    for a page that does not exist, and [page.save] stores the text of
    the object under that title.  The wiki is modelled as the text it
    holds under each title.  [pages_from] asks the wiki for a batch of
    pages over the network; what it returns, the titles of the batch in
    order, is the parameter [pages_from] of [run]. *)

Definition PAGES_TO_GO_THROUGH : nat := 25.

Definition wiki := str -> str.

Definition save (w : wiki) (title text : str) : wiki :=
  fun t => if str_eqb t title then text else w t.

Definition get_page_start (reference_page_title : str) (w : wiki) : str :=
  hd [] (split [nl] (w reference_page_title)).

Definition set_page_start (reference_page_title : str) (w : wiki)
    (new_start : str) : wiki :=
  save w reference_page_title new_start.

(** [move_cats] on the page of title [page_name]. *)
Definition move_cats_page (w : wiki) (page_name : str) : wiki :=
  if saves (w page_name)
  then save w page_name (move_text (w page_name))
  else w.

(** The loop of [run]: the last page seen and the wiki. *)
Definition run_loop (pages_to_run : list str) (last_page_seen : str)
    (w : wiki) : str * wiki :=
  fold_left (fun '(_, w) title => (title, move_cats_page w title))
    pages_to_run (last_page_seen, w).

Definition run (pages_from : wiki -> str -> list str)
    (reference_page_title : str) (w : wiki) : wiki :=
  let start_page_title := get_page_start reference_page_title w in
  let pages_to_run := pages_from w start_page_title in
  let '(last_page_seen, w') := run_loop pages_to_run [] w in
  if (length pages_to_run <? PAGES_TO_GO_THROUGH)%nat
  then set_page_start reference_page_title w' []
  else set_page_start reference_page_title w' last_page_seen.

(** * Properties *)

(** ** The string primitives *)

Lemma str_eqb_true (a b : str) : str_eqb a b = true <-> a = b.
Proof.
  unfold str_eqb. destruct (list_eq_dec N.eq_dec a b); split; congruence.
Qed.

Lemma str_eqb_false (a b : str) : str_eqb a b = false <-> a <> b.
Proof.
  unfold str_eqb. destruct (list_eq_dec N.eq_dec a b); split; congruence.
Qed.

Lemma str_eqb_refl (a : str) : str_eqb a a = true.
Proof. now apply str_eqb_true. Qed.

Lemma starts_with_app (p s : str) : starts_with p (p ++ s) = true.
Proof.
  induction p as [|a p IH]; simpl; [reflexivity|].
  now rewrite N.eqb_refl, IH.
Qed.

Lemma starts_with_cons (a b : N) (p s : str) :
  starts_with (a :: p) (b :: s) = (a =? b) && starts_with p s.
Proof. reflexivity. Qed.

Lemma starts_with_refl (p : str) : starts_with p p = true.
Proof. rewrite <- (app_nil_r p) at 2. apply starts_with_app. Qed.

Lemma starts_with_inv (p s : str) :
  starts_with p s = true -> exists r, s = p ++ r.
Proof.
  revert s. induction p as [|a p IH]; intros s H.
  - now exists s.
  - destruct s as [|b s]; simpl in H; [discriminate|].
    apply andb_true_iff in H. destruct H as [Hab H].
    apply N.eqb_eq in Hab. subst b.
    destruct (IH _ H) as [r ->]. now exists r.
Qed.

Lemma starts_with_prefix (p s t : str) :
  starts_with p s = true -> starts_with p (s ++ t) = true.
Proof.
  intros H. destruct (starts_with_inv _ _ H) as [r ->].
  rewrite <- app_assoc. apply starts_with_app.
Qed.

(** *** [split] *)

Lemma split_from_skip (sep x s : str) :
  split_from sep (length x) (x ++ s) = split_from sep 0 s.
Proof. induction x as [|c x IH]; simpl; auto. Qed.

Lemma split_nil (sep : str) : split sep [] = [[]].
Proof. reflexivity. Qed.

Lemma split_hit (sep s : str) :
  sep <> [] -> split sep (sep ++ s) = [] :: split sep s.
Proof.
  intros Hne. destruct sep as [|c sep]; [congruence|].
  unfold split. simpl app. cbn [split_from].
  change (c :: sep ++ s) with ((c :: sep) ++ s).
  rewrite starts_with_app.
  replace (length (c :: sep) - 1)%nat with (length sep) by (simpl; lia).
  now rewrite split_from_skip.
Qed.

Lemma split_miss (sep : str) (c : N) (s : str) :
  starts_with sep (c :: s) = false ->
  split sep (c :: s) = cons_hd c (split sep s).
Proof.
  intros H. unfold split. cbn [split_from]. rewrite H.
  now destruct (split_from sep 0 s).
Qed.

Lemma split_not_nil (sep s : str) : split sep s <> [].
Proof. unfold split. now destruct (split_from sep 0 s). Qed.

(** *** [replace] *)

Lemma replace_from_skip (old new x s : str) :
  replace_from old new (length x) (x ++ s) = replace_from old new 0 s.
Proof. induction x as [|c x IH]; simpl; auto. Qed.

Lemma replace_nil (old new : str) : old <> [] -> replace old new [] = [].
Proof. now destruct old. Qed.

Lemma replace_hit (old new s : str) :
  old <> [] -> replace old new (old ++ s) = new ++ replace old new s.
Proof.
  intros Hne. destruct old as [|c old]; [congruence|].
  unfold replace. simpl app. cbn [replace_from].
  change (c :: old ++ s) with ((c :: old) ++ s).
  rewrite starts_with_app.
  replace (length (c :: old) - 1)%nat with (length old) by (simpl; lia).
  now rewrite replace_from_skip.
Qed.

Lemma replace_miss (old new : str) (c : N) (s : str) :
  starts_with old (c :: s) = false ->
  replace old new (c :: s) = c :: replace old new s.
Proof.
  intros H. destruct old as [|a old]; [discriminate|].
  unfold replace. cbn [replace_from]. now rewrite H.
Qed.

(** ** The scan state *)

Lemma fold_events (evs : list event) (st d : scan_state) :
  last (trace st evs) d = fold_left event_step evs st.
Proof.
  revert st. induction evs as [|ev evs IH]; intros st; [reflexivity|].
  cbn [fold_left]. rewrite <- IH. cbn [trace].
  destruct evs; reflexivity.
Qed.

Lemma line_step_events (st : scan_state) (line : str) :
  line_step st line = fold_left event_step (events_of_line line) st.
Proof.
  unfold line_step, events_of_line. rewrite fold_left_app. cbn [fold_left event_step].
  f_equal. generalize (removelast (split_into_cats line)). intros l. revert st.
  induction l as [|f l IH]; intros st; simpl; auto.
Qed.

Lemma scan_lines_events (ls : list str) (st : scan_state) :
  fold_left line_step ls st = fold_left event_step (flat_map events_of_line ls) st.
Proof.
  revert st. induction ls as [|l ls IH]; intros st; [reflexivity|].
  cbn [fold_left flat_map]. now rewrite fold_left_app, IH, line_step_events.
Qed.

(** The trace ends in the state the loops end in. *)
Lemma scan_trace_last (text : str) :
  last (scan_trace text) (init_state text) = scan text.
Proof.
  unfold scan_trace, scan, scan_events. now rewrite fold_events, scan_lines_events.
Qed.

Lemma frag_step_moving (line : str) (st : scan_state) (pc : str) :
  should_be_moving (frag_step line st pc)
  = should_be_moving st || differs (strip line) (find_cat pc).
Proof.
  unfold frag_step.
  destruct (find_cat pc) as [c|]; destruct (should_be_moving st); simpl;
    try reflexivity; destruct (str_eqb (strip line) c); reflexivity.
Qed.

Lemma tail_step_moving (st : scan_state) (lc : str) :
  should_be_moving (tail_step st lc)
  = should_be_moving st || negb (str_eqb (strip lc) cat_close).
Proof.
  unfold tail_step.
  destruct (should_be_moving st) eqn:E; destruct (str_eqb (strip lc) cat_close);
    simpl; auto.
Qed.

Lemma event_step_moving (st : scan_state) (ev : event) :
  should_be_moving st = true -> should_be_moving (event_step st ev) = true.
Proof.
  intros H. destruct ev; simpl; [rewrite frag_step_moving|rewrite tail_step_moving];
    now rewrite H.
Qed.

Lemma trace_flips (evs : list event) (st : scan_state) :
  let bs := map should_be_moving (trace st evs) in
  resets bs = 0%nat
  /\ flips bs
     = if negb (should_be_moving st)
          && should_be_moving (fold_left event_step evs st)
       then 1%nat else 0%nat.
Proof.
  revert st. induction evs as [|ev evs IH]; intros st.
  - simpl. split; [reflexivity|]. now destruct (should_be_moving st).
  - specialize (IH (event_step st ev)). cbn zeta in IH. destruct IH as [IHr IHf].
    cbn [trace fold_left]. cbn [map].
    destruct evs as [|ev' evs].
    + cbn [trace map flips resets fold_left] in *.
      destruct (should_be_moving st) eqn:E.
      * rewrite (event_step_moving _ ev E). now split.
      * destruct (should_be_moving (event_step st ev)); now split.
    + cbn [trace map] in *. cbn [flips resets].
      cbn [flips resets] in IHr, IHf. rewrite IHr, IHf. clear IHr IHf.
      destruct (should_be_moving st) eqn:E.
      * rewrite (event_step_moving _ ev E). simpl. now split.
      * destruct (should_be_moving (event_step st ev)) eqn:E'; simpl.
        -- split; [reflexivity|].
           assert (H : should_be_moving
                         (fold_left event_step evs
                            (event_step (event_step st ev) ev')) = true).
           { clear -E'. generalize (event_step_moving _ ev' E').
             generalize (event_step (event_step st ev) ev'). clear.
             induction evs as [|e evs IH]; intros s H; [exact H|].
             simpl. apply IH. now apply event_step_moving. }
           cbn [fold_left]. now rewrite H.
        -- now split.
Qed.

(** C10 (amended). Along the reverse scan of any document the flag never
    goes back from content to trailing, and it goes from trailing to
    content at most once: once exactly when the scan ends in the content
    state, and not at all when the whole document is trailing. *)
Theorem scan_state_monotone (text : str) :
  let bs := map should_be_moving (scan_trace text) in
  resets bs = 0%nat
  /\ (flips bs <= 1)%nat
  /\ (flips bs = 1%nat <-> should_be_moving (scan text) = true).
Proof.
  cbn zeta. unfold scan_trace.
  destruct (trace_flips (scan_events text) (init_state text)) as [Hr Hf].
  cbn zeta in Hr, Hf. rewrite Hr, Hf. clear Hr Hf.
  unfold scan, scan_events. rewrite scan_lines_events.
  cbn [init_state should_be_moving negb andb].
  destruct (should_be_moving _); repeat split; intros; try lia; try discriminate.
Qed.

(** C10 (counterexample). A page made of one category line is trailing
    throughout: the flag does not change once, it never changes. *)
Lemma scan_state_no_flip :
  let bs := map should_be_moving (scan_trace (lit "[[Category:X]]")) in
  flips bs = 0%nat /\ flips bs <> 1%nat
  /\ should_be_moving (scan (lit "[[Category:X]]")) = false.
Proof. vm_compute. repeat split; discriminate. Qed.

(** C2 (amended). While the state is trailing, a fragment other than the
    last flips it to content exactly when the line, stripped of
    surrounding whitespace, differs from what the fragment yields: when
    the fragment yields no category, and also when it yields one while
    the line holds other text besides that marker. *)
Theorem frag_flip_iff (line : str) (st : scan_state) (potential_cat : str) :
  should_be_moving st = false ->
  (should_be_moving (frag_step line st potential_cat) = true
   <-> find_cat potential_cat <> Some (strip line)).
Proof.
  intros H. rewrite frag_step_moving, H. cbn [orb].
  destruct (find_cat potential_cat) as [c|]; cbn [differs].
  - rewrite negb_true_iff, str_eqb_false. split; congruence.
  - split; [discriminate|reflexivity].
Qed.

Lemma frag_flip_iff_witness :
  let line := lit "x [[Category:A]]" in
  should_be_moving (init_state line) = false
  /\ (should_be_moving (frag_step line (init_state line) line) = true
      <-> find_cat line <> Some (strip line)).
Proof. split; [reflexivity|apply frag_flip_iff; reflexivity]. Defined.

(** C2 (counterexample). On the line [x [[Category:A]]], met while the
    state is trailing, the first fragment yields the category and flips
    the state to content all the same. *)
Lemma frag_flip_with_category :
  let line := lit "x [[Category:A]]" in
  let st := init_state line in
  removelast (split_into_cats line) = [line]
  /\ find_cat line = Some (lit "[[Category:A]]")
  /\ should_be_moving st = false
  /\ should_be_moving (frag_step line st line) = true.
Proof. vm_compute. repeat split. Qed.

(** ** The two examples of the specification *)

(** C5. On the four-line example, all of it content, the scan collects
    C, B, A in this order and the page ends with these three markers, one
    per line, nothing after them. *)
Theorem order_preservation_example :
  let doc := unlines [lit "Some text [[Category:A]]"; lit "More text";
                      lit "[[Category:B]]"; lit "Final text [[Category:C]]"] in
  detected_categories (scan doc)
  = [lit "[[Category:C]]"; lit "[[Category:B]]"; lit "[[Category:A]]"]
  /\ move_text doc
     = unlines [lit "Some text "; lit "More text"; lit ""; lit "Final text ";
                lit "[[Category:C]]"; lit "[[Category:B]]"; lit "[[Category:A]]"]
  /\ move_cats doc = move_text doc.
Proof. vm_compute. repeat split. Qed.

(** C7. On the three-line example whose two categories are trailing from
    the start, nothing is collected, the page is not saved and its text
    is the text it had. *)
Theorem trailing_example_unchanged :
  let doc := unlines [lit "Some content."; lit "[[Category:X]]";
                      lit "[[Category:Y]]"] in
  detected_categories (scan doc) = []
  /\ saves doc = false
  /\ move_text doc = doc
  /\ move_cats doc = doc.
Proof. vm_compute. repeat split. Qed.

(** ** [find_cat] *)

Lemma skipn_length_app {A} (a b : list A) : skipn (length a) (a ++ b) = b.
Proof. induction a; simpl; auto. Qed.

Lemma span_name_spec (s x r : str) :
  span_name s = (x, r) -> s = x ++ r /\ no_bracket x = true.
Proof.
  revert x r. induction s as [|c s IH]; intros x r H; simpl in H.
  - injection H as <- <-. now split.
  - destruct (is_bracket c) eqn:E.
    + injection H as <- <-. now split.
    + destruct (span_name s) as [x' r']. injection H as <- <-.
      destruct (IH _ _ eq_refl) as [-> Hx]. split; [reflexivity|].
      simpl. now rewrite E, Hx.
Qed.

Lemma span_name_run (x r : str) :
  no_bracket x = true -> starts_with cat_close r = true ->
  span_name (x ++ r) = (x, r).
Proof.
  intros Hx Hr. induction x as [|c x IH]; simpl.
  - destruct (starts_with_inv _ _ Hr) as [post ->]. reflexivity.
  - simpl in Hx. apply andb_true_iff in Hx. destruct Hx as [Hc Hx].
    apply negb_true_iff in Hc. rewrite Hc, (IH Hx). reflexivity.
Qed.

Lemma match_cat_some (s m : str) :
  match_cat s = Some m ->
  exists name post, m = marker name /\ s = m ++ post /\ no_bracket name = true.
Proof.
  unfold match_cat. destruct (starts_with cat_open s) eqn:E; [|discriminate].
  destruct (starts_with_inv _ _ E) as [r ->]. rewrite skipn_length_app.
  destruct (span_name r) as [name rest] eqn:Es.
  destruct (span_name_spec _ _ _ Es) as [-> Hn].
  destruct (starts_with cat_close rest) eqn:Ec; [|discriminate].
  destruct (starts_with_inv _ _ Ec) as [post ->].
  intros H. injection H as <-. exists name, post. unfold marker.
  repeat split; auto. cbn [cat_open app]. now rewrite <- app_assoc.
Qed.

Lemma match_cat_marker (name post : str) :
  no_bracket name = true -> match_cat (marker name ++ post) = Some (marker name).
Proof.
  intros Hn. unfold match_cat, marker. rewrite <- !app_assoc.
  rewrite starts_with_app, skipn_length_app.
  rewrite span_name_run by auto using starts_with_app.
  now rewrite starts_with_app.
Qed.

Lemma match_cat_not_open (c : N) (s : str) :
  c <> lbracket -> match_cat (c :: s) = None.
Proof.
  intros H. unfold match_cat. cbn [cat_open starts_with].
  apply N.eqb_neq in H. rewrite N.eqb_sym in H. unfold lbracket in H.
  now rewrite H.
Qed.

(** A stretch without an opening bracket holds no start of a marker. *)
Lemma find_cat_skip (a s : str) :
  forallb (fun c => negb (c =? lbracket)) a = true ->
  find_cat (a ++ s) = if no_newline a then find_cat s else None.
Proof.
  intros Ha. induction a as [|c a IH]; [reflexivity|].
  simpl in Ha. apply andb_true_iff in Ha. destruct Ha as [Hc Ha].
  apply negb_true_iff, N.eqb_neq in Hc. specialize (IH Ha).
  cbn [app find_cat no_newline forallb]. rewrite (match_cat_not_open _ _ Hc).
  destruct (c =? nl); cbn [negb andb]; [reflexivity|].
  rewrite IH. fold (no_newline a). now destruct (no_newline a), (find_cat s).
Qed.

Lemma no_bracket_no_open (s : str) :
  no_bracket s = true -> forallb (fun c => negb (c =? lbracket)) s = true.
Proof.
  unfold no_bracket. rewrite !forallb_forall. intros H c Hc.
  specialize (H c Hc). unfold is_bracket in H.
  now apply negb_true_iff, orb_false_iff in H as [-> _].
Qed.

Lemma no_newline_app (a b : str) :
  no_newline (a ++ b) = no_newline a && no_newline b.
Proof. apply forallb_app. Qed.

Lemma no_bracket_app (a b : str) :
  no_bracket (a ++ b) = no_bracket a && no_bracket b.
Proof. apply forallb_app. Qed.

Lemma find_cat_cons (c : N) (s : str) :
  c <> nl ->
  find_cat (c :: s)
  = match find_cat s with Some m => Some m | None => match_cat (c :: s) end.
Proof. intros H. apply N.eqb_neq in H. cbn [find_cat]. now rewrite H. Qed.

Lemma marker_unfold (name post : str) :
  marker name ++ post
  = lbracket :: lbracket :: (lit "Category:" ++ name ++ cat_close) ++ post.
Proof. unfold marker. cbn [cat_open lit app]. now rewrite <- !app_assoc. Qed.

Lemma marker_unfold_nil (name : str) :
  marker name = lbracket :: lbracket :: lit "Category:" ++ name ++ cat_close.
Proof. reflexivity. Qed.

(** What [find_cat] finds on a text that starts with a marker. *)
Lemma find_cat_marker (name post : str) :
  no_bracket name = true ->
  find_cat (marker name ++ post)
  = match (if no_newline name then find_cat post else None) with
    | Some m => Some m
    | None => Some (marker name)
    end.
Proof.
  intros Hn. pose proof (match_cat_marker name post Hn) as Hm.
  rewrite marker_unfold in *.
  rewrite find_cat_cons by discriminate. rewrite Hm.
  rewrite find_cat_cons by discriminate.
  rewrite find_cat_skip.
  - rewrite !no_newline_app.
    replace (no_newline (lit "Category:")) with true by reflexivity.
    replace (no_newline cat_close) with true by reflexivity.
    rewrite andb_true_r. cbn [andb].
    replace (match_cat (lbracket :: _)) with (@None str) by reflexivity.
    now destruct (no_newline name), (find_cat post).
  - rewrite !forallb_app, (no_bracket_no_open _ Hn). reflexivity.
Qed.

Lemma find_cat_app_some (pre s m : str) :
  no_newline pre = true -> find_cat s = Some m -> find_cat (pre ++ s) = Some m.
Proof.
  intros Hp Hs. induction pre as [|c pre IH]; [exact Hs|].
  simpl in Hp. apply andb_true_iff in Hp. destruct Hp as [Hc Hp].
  apply negb_true_iff in Hc. cbn [app find_cat]. now rewrite Hc, (IH Hp).
Qed.

Lemma find_cat_occurrence (pre name post : str) :
  no_newline pre = true -> no_bracket name = true ->
  find_cat (pre ++ marker name ++ post) <> None
  /\ (find_cat post = None ->
      find_cat (pre ++ marker name ++ post) = Some (marker name)).
Proof.
  intros Hp Hn. pose proof (find_cat_marker name post Hn) as H. split.
  - destruct (find_cat (marker name ++ post)) as [m|] eqn:E.
    + now rewrite (find_cat_app_some _ _ _ Hp E).
    + now destruct (if no_newline name then find_cat post else None).
  - intros Hpost. apply find_cat_app_some; auto. rewrite H, Hpost.
    now destruct (no_newline name).
Qed.

Lemma find_cat_none (s : str) :
  find_cat s = None ->
  forall pre name post,
    no_newline pre = true -> no_bracket name = true ->
    s <> pre ++ marker name ++ post.
Proof.
  intros H pre name post Hp Hn ->.
  now destruct (find_cat_occurrence pre name post Hp Hn).
Qed.

Lemma find_cat_some (s m : str) :
  find_cat s = Some m ->
  exists pre name post,
    s = pre ++ m ++ post /\ m = marker name /\ no_bracket name = true
    /\ no_newline pre = true
    /\ forall pre' name' post',
         no_newline pre' = true -> no_bracket name' = true ->
         s = pre' ++ marker name' ++ post' ->
         (length pre' <= length pre)%nat.
Proof.
  revert m. induction s as [|c s IH]; intros m H; [discriminate|].
  cbn [find_cat] in H.
  destruct (if c =? nl then None else find_cat s) as [m'|] eqn:E.
  - injection H as ->. destruct (c =? nl) eqn:Ec; [discriminate|].
    destruct (IH _ E) as (pre & name & post & -> & Hm & Hn & Hp & Hmax).
    exists (c :: pre), name, post. repeat split; auto.
    + unfold no_newline in *. cbn [forallb]. now rewrite Ec, Hp.
    + intros pre' name' post' Hp' Hn' Heq. destruct pre' as [|c' pre'].
      * simpl. lia.
      * injection Heq as _ Heq. simpl in Hp'.
        apply andb_true_iff in Hp'. destruct Hp' as [_ Hp'].
        specialize (Hmax _ _ _ Hp' Hn' Heq). simpl. lia.
  - destruct (match_cat_some _ _ H) as (name & post & Hm & Hs & Hn).
    exists [], name, post. repeat split; auto.
    intros pre' name' post' Hp' Hn' Heq. destruct pre' as [|c' pre']; [simpl; lia|].
    exfalso. injection Heq as <- Heq. simpl in Hp'.
    apply andb_true_iff in Hp'. destruct Hp' as [Hc Hp'].
    apply negb_true_iff in Hc. rewrite Hc in E.
    exact (find_cat_none _ E _ _ _ Hp' Hn' Heq).
Qed.

Lemma find_cat_no_bracket (s : str) : no_bracket s = true -> find_cat s = None.
Proof.
  intros H. rewrite <- (app_nil_r s).
  rewrite find_cat_skip by now apply no_bracket_no_open.
  now destruct (no_newline s).
Qed.

(** C4 (amended). The match is anchored at the start of the fragment
    only, and the groups around the marker take any text: a fragment that
    holds a marker after text without a newline always matches, whatever
    brackets stand before or after the marker, and it yields that very
    marker when no marker can be found in what follows it. *)
Theorem find_cat_unanchored (pre name post : str) :
  no_newline pre = true -> no_bracket name = true ->
  find_cat (pre ++ marker name ++ post) <> None
  /\ (find_cat post = None ->
      find_cat (pre ++ marker name ++ post) = Some (marker name)).
Proof. apply find_cat_occurrence. Qed.

Lemma find_cat_unanchored_witness :
  no_newline (lit "[[x]] ") = true /\ no_bracket (lit "A") = true
  /\ find_cat (lit "[[x]] " ++ marker (lit "A") ++ lit " [[y]]") <> None
  /\ (find_cat (lit " [[y]]") = None ->
      find_cat (lit "[[x]] " ++ marker (lit "A") ++ lit " [[y]]")
      = Some (marker (lit "A"))).
Proof.
  split; [reflexivity|]. split; [reflexivity|].
  apply (find_cat_unanchored (lit "[[x]] ") (lit "A") (lit " [[y]]"));
    reflexivity.
Defined.

(** C4 (counterexample). A fragment with a bracket pair before the
    marker and another after it matches and yields the marker. *)
Lemma find_cat_extra_brackets :
  find_cat (lit "[[x]] [[Category:A]] [[y]]") = Some (lit "[[Category:A]]")
  /\ find_cat (lit "[[x]] [[Category:A]] [[y]]") <> None.
Proof. split; [reflexivity|discriminate]. Qed.

(** C6 (amended). On a line of text [find_cat] returns the last marker
    of the line, a marker being [[[Category:], any number of characters
    that are no bracket, none included, and []]]; it returns the marker
    alone, without the text around it; it returns none when the line holds
    no marker; and a line with one marker and no other bracket yields
    that marker. *)
Theorem find_cat_contract (line : str) :
  no_newline line = true ->
  (forall m, find_cat line = Some m ->
     exists pre name post,
       line = pre ++ m ++ post /\ m = marker name /\ no_bracket name = true
       /\ forall pre' name' post',
            no_bracket name' = true ->
            line = pre' ++ marker name' ++ post' ->
            (length pre' <= length pre)%nat)
  /\ (find_cat line = None ->
      forall pre name post,
        no_bracket name = true -> line <> pre ++ marker name ++ post)
  /\ (forall pre name post,
        line = pre ++ marker name ++ post ->
        no_bracket pre = true -> no_bracket name = true ->
        no_bracket post = true ->
        find_cat line = Some (marker name)).
Proof.
  intros Hl. repeat split.
  - intros m H.
    destruct (find_cat_some _ _ H) as (pre & name & post & Hs & Hm & Hn & Hp & Hmax).
    exists pre, name, post. repeat split; auto.
    intros pre' name' post' Hn' Heq. apply (Hmax pre' name' post'); auto.
    rewrite Heq, no_newline_app in Hl. now apply andb_true_iff in Hl.
  - intros H pre name post Hn Heq.
    apply (find_cat_none _ H pre name post); auto.
    rewrite Heq, no_newline_app in Hl. now apply andb_true_iff in Hl.
  - intros pre name post Heq Hp Hn Hpost. subst line.
    apply find_cat_occurrence; auto using find_cat_no_bracket.
    rewrite no_newline_app in Hl. now apply andb_true_iff in Hl.
Qed.

Lemma find_cat_contract_witness :
  no_newline (lit "see [[Category:A]] here") = true
  /\ find_cat (lit "see [[Category:A]] here") = Some (marker (lit "A")).
Proof.
  split; [reflexivity|].
  apply (proj2 (proj2 (find_cat_contract (lit "see [[Category:A]] here") eq_refl))
           (lit "see ") (lit "A") (lit " here")); reflexivity.
Defined.

(** C6 (counterexample). Where a line holds two markers [find_cat]
    returns the second, not the first; and it takes a marker with an
    empty name, which the specified pattern refuses. *)
Lemma find_cat_not_first :
  find_cat (lit "[[Category:A]] [[Category:B]]") = Some (lit "[[Category:B]]")
  /\ first_cat_spec (lit "[[Category:A]] [[Category:B]]")
     = Some (lit "[[Category:A]]")
  /\ find_cat (lit "[[Category:A]] [[Category:B]]")
     <> first_cat_spec (lit "[[Category:A]] [[Category:B]]")
  /\ find_cat (lit "[[Category:]]") = Some (lit "[[Category:]]")
  /\ first_cat_spec (lit "[[Category:]]") = None.
Proof. vm_compute. repeat split; discriminate. Qed.

(** ** Scanning for a pattern *)

(** Induction along the way [split] and [replace] read a text: at each
    position either the pattern is found and passed over, or one
    character is passed over. *)
Lemma pattern_ind (sep : str) (Hne : sep <> []) (P : str -> Prop) :
  P [] ->
  (forall s, P s -> P (sep ++ s)) ->
  (forall c s, starts_with sep (c :: s) = false -> P s -> P (c :: s)) ->
  forall s, P s.
Proof.
  intros H0 Hhit Hmiss s.
  remember (length s) as n eqn:Hn. revert s Hn.
  induction n as [n IH] using lt_wf_ind. intros s Hn.
  destruct s as [|c s]; [exact H0|].
  destruct (starts_with sep (c :: s)) eqn:E.
  - destruct (starts_with_inv _ _ E) as [r Hr]. rewrite Hr.
    apply Hhit. apply (IH (length r)); [|reflexivity].
    rewrite Hn, Hr, length_app. destruct sep; [congruence|simpl; lia].
  - apply Hmiss; [exact E|]. apply (IH (length s)); [|reflexivity].
    rewrite Hn. simpl. lia.
Qed.

Lemma split_nl_hit (s : str) : split [nl] (nl :: s) = [] :: split [nl] s.
Proof. apply (split_hit [nl] s). discriminate. Qed.

Lemma split_nl_miss (c : N) (s : str) :
  c <> nl -> split [nl] (c :: s) = cons_hd c (split [nl] s).
Proof.
  intros H. apply split_miss. cbn [starts_with].
  apply N.eqb_neq in H. rewrite N.eqb_sym in H. now rewrite H.
Qed.

Lemma cons_hd_app (c : N) (l l' : list str) :
  l <> [] -> cons_hd c (l ++ l') = cons_hd c l ++ l'.
Proof. now destruct l. Qed.

(** The lines of a text cut at a newline. *)
Lemma split_nl_app (a b : str) :
  split [nl] (a ++ nl :: b) = split [nl] a ++ split [nl] b.
Proof.
  induction a as [|c a IH]; [apply split_nl_hit|].
  cbn [app]. destruct (N.eq_dec c nl) as [->|Hc].
  - now rewrite !split_nl_hit, IH.
  - rewrite !split_nl_miss, IH by assumption.
    apply cons_hd_app, split_not_nil.
Qed.

Lemma split_nl_one (s : str) : no_newline s = true -> split [nl] s = [s].
Proof.
  induction s as [|c s IH]; [reflexivity|].
  cbn [no_newline forallb]. intros H. apply andb_true_iff in H.
  destruct H as [Hc H]. apply negb_true_iff, N.eqb_neq in Hc.
  now rewrite split_nl_miss, (IH H).
Qed.

Lemma split_nl_lines (s : str) :
  Forall (fun l => no_newline l = true) (split [nl] s).
Proof.
  induction s as [|c s IH]; [now repeat constructor|].
  destruct (N.eq_dec c nl) as [->|Hc].
  - rewrite split_nl_hit. now constructor.
  - rewrite split_nl_miss by assumption.
    destruct (split [nl] s) as [|h t]; cbn [cons_hd].
    + repeat constructor. cbn. apply N.eqb_neq in Hc. now rewrite Hc.
    + inversion IH; subst. constructor; auto.
      cbn [no_newline forallb]. apply N.eqb_neq in Hc. now rewrite Hc.
Qed.

Lemma split_nl_repeat (k : nat) :
  split [nl] (repeat nl k) = repeat [] (S k).
Proof.
  induction k as [|k IH]; [reflexivity|].
  cbn [repeat]. now rewrite split_nl_hit, IH.
Qed.

Lemma split_nl_app_repeat (s : str) (k : nat) :
  split [nl] (s ++ repeat nl k) = split [nl] s ++ repeat [] k.
Proof.
  destruct k as [|k]; [now rewrite !app_nil_r|].
  cbn [repeat]. now rewrite split_nl_app, split_nl_repeat.
Qed.

(** A text that does not end in a newline has a last line with a
    character in it. *)
Lemma split_nl_snoc (s : str) (c : N) :
  c <> nl -> exists ls l, split [nl] (s ++ [c]) = ls ++ [l ++ [c]].
Proof.
  intros Hc. induction s as [|a s (ls & l & IH)].
  - exists [], []. cbn [app]. now rewrite split_nl_miss.
  - cbn [app]. destruct (N.eq_dec a nl) as [->|Ha].
    + exists ([] :: ls), l. now rewrite split_nl_hit, IH.
    + rewrite split_nl_miss, IH by assumption. destruct ls as [|h t].
      * now exists [], (a :: l).
      * now exists ((a :: h) :: t), l.
Qed.

(** *** [rstrip] and [strip] *)

Section StripBy.

Variable f : N -> bool.

Lemma lstrip_by_all (a s : str) :
  forallb f a = true -> lstrip_by f (a ++ s) = lstrip_by f s.
Proof.
  induction a as [|c a IH]; [reflexivity|]. cbn [forallb]. intros H.
  apply andb_true_iff in H. destruct H as [Hc H]. cbn [app lstrip_by].
  now rewrite Hc, (IH H).
Qed.

Lemma lstrip_by_spec (s : str) :
  exists a, s = a ++ lstrip_by f s /\ forallb f a = true.
Proof.
  induction s as [|c s (a & Hs & Ha)]; [now exists []|].
  cbn [lstrip_by]. destruct (f c) eqn:E.
  - exists (c :: a). cbn [app forallb]. now rewrite E, Ha, <- Hs.
  - now exists [].
Qed.

Lemma lstrip_by_stop (c : N) (s : str) :
  f c = false -> lstrip_by f (c :: s) = c :: s.
Proof. intros H. cbn [lstrip_by]. now rewrite H. Qed.

Lemma rstrip_by_snoc (s : str) (c : N) :
  rstrip_by f (s ++ [c]) = if f c then rstrip_by f s else s ++ [c].
Proof.
  unfold rstrip_by. rewrite rev_app_distr. cbn [rev app lstrip_by].
  destruct (f c); [reflexivity|].
  cbn [rev]. now rewrite rev_involutive.
Qed.

(** What [rstrip] removes is a run of characters of the set. *)
Lemma rstrip_by_spec (s : str) :
  exists z, s = rstrip_by f s ++ z /\ forallb f z = true.
Proof.
  induction s as [|c s (z & Hs & Hz)] using rev_ind.
  - now exists [].
  - rewrite rstrip_by_snoc. destruct (f c) eqn:E.
    + exists (z ++ [c]). split.
      * now rewrite app_assoc, <- Hs.
      * now rewrite forallb_app, Hz; cbn; rewrite E.
    + exists []. now rewrite app_nil_r.
Qed.

Lemma rstrip_by_all (s z : str) :
  forallb f z = true -> rstrip_by f (s ++ z) = rstrip_by f s.
Proof.
  induction z as [|c z IH] using rev_ind; [now rewrite app_nil_r|].
  rewrite forallb_app. cbn [forallb]. intros H. apply andb_true_iff in H.
  destruct H as [H Hc]. rewrite andb_true_r in Hc.
  now rewrite app_assoc, rstrip_by_snoc, Hc, (IH H).
Qed.

(** What [rstrip] leaves does not end in a character of the set. *)
Lemma rstrip_by_last (s a : str) (c : N) :
  rstrip_by f s = a ++ [c] -> f c = false.
Proof.
  revert a c. induction s as [|x s IH] using rev_ind; intros a c H.
  - now destruct a.
  - rewrite rstrip_by_snoc in H. destruct (f x) eqn:E; [now apply (IH a)|].
    apply app_inj_tail in H. now destruct H as [_ <-].
Qed.

Lemma rstrip_by_fixed (a : str) (c : N) :
  f c = false -> rstrip_by f (a ++ [c]) = a ++ [c].
Proof. intros H. now rewrite rstrip_by_snoc, H. Qed.


End StripBy.

Lemma forallb_repeat_nl (z : str) :
  forallb (N.eqb nl) z = true -> z = repeat nl (length z).
Proof.
  induction z as [|c z IH]; [reflexivity|]. cbn [forallb]. intros H.
  apply andb_true_iff in H. destruct H as [Hc H]. apply N.eqb_eq in Hc.
  subst c. cbn. now rewrite <- (IH H).
Qed.

Lemma rstrip_nl_spec (s : str) :
  exists k, s = rstrip_nl s ++ repeat nl k.
Proof.
  destruct (rstrip_by_spec (N.eqb nl) s) as (z & Hs & Hz).
  exists (length z). now rewrite <- (forallb_repeat_nl z Hz).
Qed.

(** ** Invariants of the scan *)

Lemma remove_all_app (ds ds' : list str) (t : str) :
  remove_all (ds ++ ds') t = remove_all ds' (remove_all ds t).
Proof. apply fold_left_app. Qed.

Lemma event_step_text (st : scan_state) (ev : event) :
  exists new,
    detected_categories (event_step st ev) = detected_categories st ++ new
    /\ page_text (event_step st ev) = remove_all new (page_text st).
Proof.
  destruct ev as [line pc|lc]; cbn [event_step].
  - unfold frag_step. cbv zeta. destruct (find_cat pc) as [c|].
    + destruct (differs _ _ && _); [now exists [c]|].
      destruct (should_be_moving st); [now exists [c]|].
      exists []. now rewrite app_nil_r.
    + exists []. now rewrite app_nil_r.
  - unfold tail_step. destruct (_ && _); exists []; now rewrite app_nil_r.
Qed.

Lemma events_text (evs : list event) (st : scan_state) :
  exists new,
    detected_categories (fold_left event_step evs st)
    = detected_categories st ++ new
    /\ page_text (fold_left event_step evs st) = remove_all new (page_text st).
Proof.
  revert st. induction evs as [|ev evs IH]; intros st.
  - exists []. now rewrite app_nil_r.
  - cbn [fold_left]. destruct (event_step_text st ev) as (n1 & Hd1 & Ht1).
    destruct (IH (event_step st ev)) as (n2 & Hd2 & Ht2).
    exists (n1 ++ n2). rewrite Hd2, Hd1, Ht2, Ht1.
    now rewrite app_assoc, remove_all_app.
Qed.

(** The page text during the scan is the text of the page with the
    categories detected so far removed, in the order of detection. *)
Lemma scan_text (text : str) :
  page_text (scan text) = remove_all (detected_categories (scan text)) text.
Proof.
  unfold scan. rewrite scan_lines_events.
  destruct (events_text (flat_map events_of_line (rev (split [nl] text)))
              (init_state text)) as (new & Hd & Ht).
  now rewrite Hd, Ht.
Qed.

Lemma in_removelast {A} (x : A) (l : list A) : In x (removelast l) -> In x l.
Proof.
  induction l as [|a l IH]; [easy|]. destruct l as [|b l]; [easy|].
  cbn [removelast]. intros [->|H]; [now left|right; auto].
Qed.

Lemma split_pieces_no_newline (sep s : str) :
  sep <> [] -> no_newline s = true ->
  Forall (fun p => no_newline p = true) (split sep s).
Proof.
  intros Hne. induction s as [|r IH|c r Hc IH] using (pattern_ind sep Hne).
  - now repeat constructor.
  - rewrite no_newline_app. intros H. apply andb_true_iff in H.
    rewrite split_hit by assumption. constructor; [reflexivity|tauto].
  - cbn [no_newline forallb]. intros H. apply andb_true_iff in H.
    destruct H as [Hn H]. specialize (IH H). rewrite split_miss by assumption.
    destruct (split sep r) as [|h t]; cbn [cons_hd].
    + repeat constructor. cbn. now rewrite Hn.
    + inversion IH; subst. constructor; auto.
      cbn [no_newline forallb]. rewrite Hn. assumption.
Qed.

Lemma split_into_cats_no_newline (line : str) :
  no_newline line = true ->
  Forall (fun f => no_newline f = true) (split_into_cats line).
Proof.
  intros H. unfold split_into_cats. apply Forall_map.
  eapply Forall_impl; [|apply (split_pieces_no_newline cat_close line); easy].
  intros p Hp. now rewrite no_newline_app, Hp.
Qed.

Lemma find_cat_is_cat (f c : str) :
  no_newline f = true -> find_cat f = Some c -> is_cat c.
Proof.
  intros Hf H.
  destruct (find_cat_some _ _ H) as (pre & name & post & Hs & Hm & Hn & _).
  exists name. repeat split; auto.
  rewrite Hs, Hm in Hf. unfold marker in Hf.
  rewrite !no_newline_app in Hf. repeat (apply andb_true_iff in Hf as [Hf ?]).
  repeat match goal with H : _ && _ = true |- _ => apply andb_true_iff in H as [? ?] end.
  assumption.
Qed.

Lemma events_of_line_ok (line : str) :
  no_newline line = true -> Forall line_event (events_of_line line).
Proof.
  intros H. unfold events_of_line. apply Forall_app. split.
  - apply Forall_map. apply Forall_forall. intros f Hf. cbn.
    pose proof (split_into_cats_no_newline line H) as Hall.
    rewrite Forall_forall in Hall. apply Hall. now apply in_removelast.
  - now repeat constructor.
Qed.

Lemma scan_events_ok (text : str) : Forall line_event (scan_events text).
Proof.
  unfold scan_events. apply Forall_flat_map.
  apply Forall_rev. eapply Forall_impl; [|apply split_nl_lines].
  intros l Hl. now apply events_of_line_ok.
Qed.

Lemma events_is_cat (evs : list event) (st : scan_state) :
  Forall line_event evs ->
  Forall is_cat (detected_categories st) ->
  Forall is_cat (detected_categories (fold_left event_step evs st)).
Proof.
  revert st. induction evs as [|ev evs IH]; intros st Hev Hst; [exact Hst|].
  inversion Hev as [|? ? Hev1 Hev2]; subst. cbn [fold_left]. apply IH; auto.
  destruct ev as [line pc|lc]; cbn [event_step].
  - unfold frag_step. cbv zeta. destruct (find_cat pc) as [c|] eqn:E; auto.
    assert (Hc : Forall is_cat (detected_categories st ++ [c])).
    { apply Forall_app. split; auto.
      repeat constructor. exact (find_cat_is_cat _ _ Hev1 E). }
    destruct (differs _ _ && _); auto.
    destruct (should_be_moving st); auto.
  - unfold tail_step. now destruct (_ && _).
Qed.

(** Every category the scan detects is a marker without a newline. *)
Lemma scan_is_cat (text : str) :
  Forall is_cat (detected_categories (scan text)).
Proof.
  unfold scan. rewrite scan_lines_events.
  apply events_is_cat; [apply scan_events_ok|constructor].
Qed.

Lemma is_cat_no_newline (d : str) : is_cat d -> no_newline d = true.
Proof.
  intros (name & -> & _ & Hn). unfold marker.
  now rewrite !no_newline_app, Hn.
Qed.

(** ** The rewrite *)

Lemma append_block (ds : list str) (t : str) :
  fold_left (fun t cat => t ++ nl :: cat) ds t = t ++ block ds.
Proof.
  revert t. induction ds as [|d ds IH]; intros t; cbn [fold_left block flat_map].
  - now rewrite app_nil_r.
  - rewrite IH. fold (block ds). now rewrite <- app_assoc.
Qed.

Lemma move_text_block (text : str) :
  move_text text
  = rstrip_nl (page_text (scan text)) ++ block (detected_categories (scan text)).
Proof.
  unfold move_text. destruct (detected_categories (scan text)) as [|d ds].
  - cbn. now rewrite app_nil_r.
  - cbn [length Nat.ltb Nat.leb]. apply append_block.
Qed.

Lemma split_nl_block (s : str) (ds : list str) :
  Forall (fun d => no_newline d = true) ds ->
  split [nl] (s ++ block ds) = split [nl] s ++ ds.
Proof.
  intros H. revert s. induction H as [|d ds Hd _ IH]; intros s.
  - cbn. now rewrite !app_nil_r.
  - cbn [block flat_map]. fold (block ds). cbn [app].
    now rewrite split_nl_app, IH, (split_nl_one d Hd).
Qed.

(** X13. Before the block of relocated categories is appended, the page
    text loses all the newline characters it ends in, and nothing else:
    what is left does not end in a newline, so its last line is not the
    empty string (unless nothing at all is left), and the block, one
    category per line, comes right after it. *)
Theorem trailing_newlines_collapsed (text : str) :
  let st := scan text in
  let body := rstrip_nl (page_text st) in
  (exists k, page_text st = body ++ repeat nl k)
  /\ (forall a, body <> a ++ [nl])
  /\ (body = [] \/ last (split [nl] body) [] <> [])
  /\ move_text text = body ++ block (detected_categories st)
  /\ split [nl] (move_text text) = split [nl] body ++ detected_categories st.
Proof.
  cbn zeta. repeat split.
  - apply rstrip_nl_spec.
  - intros a H. apply rstrip_by_last in H. now rewrite N.eqb_refl in H.
  - destruct (rstrip_nl (page_text (scan text))) as [|c a _] eqn:E using rev_ind;
      [now left|right].
    pose proof (rstrip_by_last _ _ _ _ E) as Hc. apply N.eqb_neq in Hc.
    destruct (split_nl_snoc a c) as (ls & l & ->); [congruence|].
    rewrite last_last. now destruct l.
  - apply move_text_block.
  - rewrite move_text_block. apply split_nl_block.
    eapply Forall_impl; [|apply scan_is_cat]. apply is_cat_no_newline.
Qed.

(** ** Removal of a marker *)

Lemma replace_skip_no_open (d a s : str) :
  no_open a = true ->
  replace (lbracket :: d) [] (a ++ s) = a ++ replace (lbracket :: d) [] s.
Proof.
  intros Ha. induction a as [|c a IH]; [reflexivity|].
  cbn [no_open forallb] in Ha. apply andb_true_iff in Ha. destruct Ha as [Hc Ha].
  cbn [app]. rewrite replace_miss, (IH Ha); [reflexivity|].
  cbn [starts_with]. apply negb_true_iff in Hc. rewrite N.eqb_sym in Hc.
  now rewrite Hc.
Qed.

Lemma split_nl_head (r h : str) (tl : list str) :
  split [nl] r = h :: tl -> exists rest, r = h ++ rest.
Proof.
  revert h tl. induction r as [|c r IH]; intros h tl H.
  - injection H as <- <-. now exists [].
  - destruct (N.eq_dec c nl) as [->|Hc].
    + rewrite split_nl_hit in H. injection H as <- <-. now exists (nl :: r).
    + rewrite split_nl_miss in H by assumption.
      destruct (split [nl] r) as [|h' tl'] eqn:E; [now destruct (split_not_nil _ _ E)|].
      injection H as <- <-. destruct (IH _ _ eq_refl) as [rest ->].
      now exists rest.
Qed.

Lemma split_nl_prefix (d r : str) :
  no_newline d = true ->
  split [nl] (d ++ r)
  = (d ++ hd [] (split [nl] r)) :: tl (split [nl] r).
Proof.
  intros Hd. induction d as [|c d IH]; cbn [app].
  - destruct (split [nl] r) eqn:E; [now destruct (split_not_nil _ _ E)|reflexivity].
  - cbn [no_newline forallb] in Hd. apply andb_true_iff in Hd.
    destruct Hd as [Hc Hd]. apply negb_true_iff, N.eqb_neq in Hc.
    now rewrite split_nl_miss, (IH Hd).
Qed.

(** Removing a pattern without a newline from a text removes it from
    each of its lines, and keeps the lines apart. *)
Lemma split_nl_replace (d t : str) :
  d <> [] -> no_newline d = true ->
  split [nl] (replace d [] t) = map (replace d []) (split [nl] t).
Proof.
  intros Hne Hd. induction t as [|r IH|c r Hc IH] using (pattern_ind d Hne).
  - rewrite split_nil. cbn [map]. now rewrite !replace_nil.
  - rewrite replace_hit by assumption. cbn [app].
    rewrite split_nl_prefix by assumption. cbn [map].
    rewrite replace_hit by assumption. cbn [app]. rewrite IH.
    destruct (split [nl] r) eqn:E; [now destruct (split_not_nil _ _ E)|reflexivity].
  - rewrite replace_miss by assumption. destruct (N.eq_dec c nl) as [->|Hnl].
    + rewrite !split_nl_hit, IH. cbn [map]. now rewrite replace_nil.
    + rewrite !split_nl_miss, IH by assumption.
      destruct (split [nl] r) as [|h tl] eqn:E; [now destruct (split_not_nil _ _ E)|].
      cbn [map cons_hd]. rewrite replace_miss; [reflexivity|].
      destruct (split_nl_head _ _ _ E) as [rest ->].
      destruct (starts_with d (c :: h)) eqn:Es; [|reflexivity].
      rewrite <- Hc. symmetry.
      apply (starts_with_prefix d (c :: h) rest Es).
Qed.

Lemma starts_with_app_cases (d x y : str) :
  starts_with d (x ++ y) = true ->
  starts_with d x = true
  \/ exists d1, d = x ++ d1 /\ starts_with d1 y = true.
Proof.
  revert d. induction x as [|c x IH]; intros d H.
  - right. now exists d.
  - destruct d as [|a d]; [now left|].
    cbn [app starts_with] in H. apply andb_true_iff in H. destruct H as [Hac H].
    apply N.eqb_eq in Hac. subst a.
    destruct (IH _ H) as [Hl|(d1 & -> & Hr)].
    + left. cbn. now rewrite N.eqb_refl.
    + right. now exists d1.
Qed.

(** A marker does not overlap a copy of itself. *)
Lemma marker_no_border (name x d1 y : str) :
  no_bracket name = true ->
  marker name = x ++ d1 -> x <> [] -> d1 <> [] ->
  starts_with d1 (marker name ++ y) = false.
Proof.
  intros Hn Heq Hx Hd. rewrite marker_unfold. rewrite marker_unfold_nil in Heq.
  assert (Ho : no_open (lit "Category:" ++ name ++ cat_close) = true).
  { unfold no_open. now rewrite !forallb_app, (no_bracket_no_open _ Hn). }
  remember (lit "Category:" ++ name ++ cat_close) as rest eqn:Hrest.
  destruct x as [|x0 x]; [congruence|]. injection Heq as <- Heq.
  destruct x as [|x1 x].
  - cbn [app] in Heq. subst d1 rest. reflexivity.
  - injection Heq as <- Heq. rewrite Heq in Ho.
    unfold no_open in Ho. rewrite forallb_app in Ho.
    apply andb_true_iff in Ho. destruct Ho as [_ Ho].
    destruct d1 as [|c d1]; [congruence|]. cbn [forallb] in Ho.
    apply andb_true_iff in Ho. destruct Ho as [Hc _].
    cbn [starts_with]. apply negb_true_iff in Hc. now rewrite Hc.
Qed.

(** Every occurrence of a marker is removed. *)
Lemma replace_marker_app (name a b : str) :
  no_bracket name = true ->
  replace (marker name) [] (a ++ marker name ++ b)
  = replace (marker name) [] a ++ replace (marker name) [] b.
Proof.
  intros Hn. assert (Hne : marker name <> []) by discriminate.
  induction a as [|r IH|c r Hc IH] using (pattern_ind (marker name) Hne).
  - cbn [app]. now rewrite replace_hit, replace_nil.
  - rewrite <- app_assoc, !replace_hit by assumption. exact IH.
  - cbn [app]. rewrite !replace_miss, IH; auto.
    destruct (starts_with (marker name) (c :: r ++ marker name ++ b)) eqn:E;
      [|reflexivity].
    change (c :: r ++ marker name ++ b) with ((c :: r) ++ marker name ++ b) in E.
    destruct (starts_with_app_cases _ _ _ E) as [Hl|(d1 & Hd & Hr)]; [congruence|].
    destruct d1 as [|c1 d1].
    + rewrite app_nil_r in Hd. rewrite Hd, starts_with_refl in Hc.
      discriminate.
    + rewrite (marker_no_border name (c :: r) (c1 :: d1) b) in Hr;
        congruence.
Qed.

Lemma frag_step_content (line : str) (st : scan_state) (pc c : str) :
  find_cat pc = Some c -> should_be_moving st = true ->
  frag_step line st pc
  = {| should_be_moving := true;
       detected_categories := detected_categories st ++ [c];
       page_text := replace c [] (page_text st) |}.
Proof.
  intros Hc Hm. unfold frag_step. rewrite Hc, Hm. cbn [negb].
  now rewrite andb_false_r.
Qed.

Lemma frag_step_relocates (line : str) (st : scan_state) (pc c : str) :
  find_cat pc = Some c ->
  should_be_moving st = true \/ strip line <> c ->
  frag_step line st pc
  = {| should_be_moving := true;
       detected_categories := detected_categories st ++ [c];
       page_text := replace c [] (page_text st) |}.
Proof.
  intros Hc [Hm|Hne]; [now apply frag_step_content|].
  unfold frag_step. rewrite Hc. cbn [differs].
  apply str_eqb_false in Hne. rewrite Hne. cbn [negb andb].
  now destruct (should_be_moving st).
Qed.

Lemma frag_step_passes (line : str) (st : scan_state) (pc c : str) :
  find_cat pc = Some c ->
  should_be_moving st = false -> strip line = c ->
  frag_step line st pc
  = {| should_be_moving := false;
       detected_categories := detected_categories st;
       page_text := page_text st |}.
Proof.
  intros Hc Hm Heq. unfold frag_step. rewrite Hc, Hm. cbn [differs].
  apply str_eqb_true in Heq. now rewrite Heq.
Qed.

(** C8. When a fragment yields a category and the state is content
    where the loop body tests it, after its own test of the line, that
    is when the state was content already or this very fragment ends the
    trailing region, the category is appended to the collected list and
    the page text becomes the text with that marker replaced by nothing.
    The replacement is over the whole text: any occurrence of the marker,
    wherever the text holds it, is gone, and every line of the page,
    not the scanned one alone, has the marker taken out of it.  A
    category yielded while the state stays trailing is neither appended
    nor removed. *)
Theorem global_removal
    (line : str) (st : scan_state) (potential_cat category : str) :
  find_cat potential_cat = Some category ->
  let st' := frag_step line st potential_cat in
  (should_be_moving st = true \/ strip line <> category ->
   should_be_moving st' = true
   /\ detected_categories st' = detected_categories st ++ [category]
   /\ page_text st' = replace category [] (page_text st)
   /\ (forall a b,
         page_text st = a ++ category ++ b ->
         page_text st' = replace category [] a ++ replace category [] b)
   /\ (no_newline potential_cat = true ->
       split [nl] (page_text st')
       = map (replace category []) (split [nl] (page_text st))))
  /\ (should_be_moving st = false -> strip line = category ->
      should_be_moving st' = false
      /\ detected_categories st' = detected_categories st
      /\ page_text st' = page_text st).
Proof.
  intros Hc. cbn zeta. split.
  - intros Hm. rewrite (frag_step_relocates _ _ _ _ Hc Hm).
    cbn [should_be_moving detected_categories page_text]. repeat split.
    + intros a b ->.
      destruct (find_cat_some _ _ Hc) as (_ & name & _ & _ & -> & Hn & _).
      now apply replace_marker_app.
    + intros Hpc. pose proof (find_cat_is_cat _ _ Hpc Hc) as Hcat.
      apply split_nl_replace; [|now apply is_cat_no_newline].
      destruct Hcat as (name & -> & _). discriminate.
  - intros Hm Heq. now rewrite (frag_step_passes _ _ _ _ Hc Hm Heq).
Qed.

Lemma global_removal_witness :
  let line := lit "x [[Category:A]]" in
  let text := unlines [lit "[[Category:A]] a"; line; lit "b [[Category:A]]"] in
  let st := init_state text in
  find_cat line = Some (lit "[[Category:A]]")
  /\ should_be_moving st = false
  /\ strip line <> lit "[[Category:A]]"
  /\ should_be_moving (frag_step line st line) = true
  /\ detected_categories (frag_step line st line) = [lit "[[Category:A]]"]
  /\ page_text (frag_step line st line) = unlines [lit " a"; lit "x "; lit "b "].
Proof.
  cbv zeta. split; [reflexivity|]. split; [reflexivity|].
  assert (Hne : strip (lit "x [[Category:A]]") <> lit "[[Category:A]]")
    by discriminate.
  split; [exact Hne|].
  destruct (global_removal (lit "x [[Category:A]]")
    (init_state (unlines [lit "[[Category:A]] a"; lit "x [[Category:A]]";
                          lit "b [[Category:A]]"]))
    (lit "x [[Category:A]]") (lit "[[Category:A]]") eq_refl) as [H _].
  cbv zeta in H. destruct (H (or_intror Hne)) as (Hm & Hd & Ht & _).
  split; [exact Hm|]. split; [exact Hd|]. rewrite Ht. reflexivity.
Defined.

(** ** Simple lines *)

Lemma no_bracket_open_close (s : str) :
  no_bracket s = no_open s && no_close s.
Proof.
  induction s as [|c s IH]; [reflexivity|].
  cbn [no_bracket no_open no_close forallb].
  fold (no_bracket s) (no_open s) (no_close s). rewrite IH.
  unfold is_bracket.
  destruct (c =? lbracket), (c =? rbracket), (no_open s), (no_close s);
    reflexivity.
Qed.

Lemma no_bracket_no_close (s : str) : no_bracket s = true -> no_close s = true.
Proof. rewrite no_bracket_open_close. now intros [_ H]%andb_true_iff. Qed.

Lemma no_bracket_cons (c : N) (s : str) :
  no_bracket (c :: s) = negb (is_bracket c) && no_bracket s.
Proof. reflexivity. Qed.

Lemma render_cons (p b : str) (segs : list seg) (tail : str) :
  render ((p, b) :: segs) tail
  = p ++ lbracket :: lbracket :: b ++ cat_close ++ render segs tail.
Proof.
  cbn [render]. unfold frag_of, bracketed. cbn [fst snd cat_begin app].
  rewrite <- app_assoc. cbn [app]. now rewrite <- app_assoc.
Qed.

Lemma render_push (p : str) (l : list seg * str) :
  render (fst (push p l)) (snd (push p l)) = p ++ render (fst l) (snd l).
Proof.
  destruct l as [[|[p' b] r] t]; cbn [push fst snd render]; [reflexivity|].
  unfold frag_of. cbn [fst snd]. now rewrite <- !app_assoc.
Qed.

Lemma line_ok_push (p : str) (l : list seg * str) :
  no_bracket p = true -> line_ok (fst l) (snd l) = true ->
  line_ok (fst (push p l)) (snd (push p l)) = true.
Proof.
  intros Hp. destruct l as [[|[p' b] r] t]; cbn [push fst snd]; unfold line_ok.
  - cbn [forallb andb]. intros H. now rewrite no_bracket_app, Hp, H.
  - cbn [forallb]. unfold seg_ok at 1 3. cbn [fst snd].
    rewrite no_bracket_app, Hp. now cbn [andb].
Qed.

(** A line the reader accepts is a rendered sequence of segments. *)
Lemma simple_from_parse (s : str) :
  (simple_from Outside s = true ->
   exists segs tail, s = render segs tail /\ line_ok segs tail = true)
  /\ (simple_from Opening s = true ->
      exists b segs tail,
        s = lbracket :: b ++ cat_close ++ render segs tail
        /\ no_bracket b = true /\ line_ok segs tail = true)
  /\ (simple_from Inside s = true ->
      exists b segs tail,
        s = b ++ cat_close ++ render segs tail
        /\ no_bracket b = true /\ line_ok segs tail = true)
  /\ (simple_from Closing s = true ->
      exists segs tail,
        s = rbracket :: render segs tail /\ line_ok segs tail = true).
Proof.
  induction s as [|c s (IHo & IHg & IHi & IHc)].
  - repeat split; try discriminate. intros _. now exists [], [].
  - repeat split; cbn [simple_from].
    + destruct (c =? lbracket) eqn:El.
      * apply N.eqb_eq in El. subst c. intros H.
        destruct (IHg H) as (b & segs & tail & -> & Hb & Hok).
        exists (([], b) :: segs), tail. split; [now rewrite render_cons|].
        unfold line_ok in *. cbn [forallb]. unfold seg_ok at 1. cbn [fst snd].
        now rewrite Hb.
      * destruct (c =? rbracket) eqn:Er; [discriminate|]. intros H.
        destruct (IHo H) as (segs & tail & -> & Hok).
        exists (fst (push [c] (segs, tail))), (snd (push [c] (segs, tail))).
        split; [now rewrite render_push|].
        apply line_ok_push; [|exact Hok].
        cbn. unfold is_bracket. now rewrite El, Er.
    + destruct (c =? lbracket) eqn:El; [|discriminate].
      apply N.eqb_eq in El. subst c. intros H.
      destruct (IHi H) as (b & segs & tail & -> & Hb & Hok).
      now exists b, segs, tail.
    + destruct (c =? rbracket) eqn:Er.
      * apply N.eqb_eq in Er. subst c. intros H.
        destruct (IHc H) as (segs & tail & -> & Hok).
        now exists [], segs, tail.
      * destruct (c =? lbracket) eqn:El; [discriminate|]. intros H.
        destruct (IHi H) as (b & segs & tail & -> & Hb & Hok).
        exists (c :: b), segs, tail. repeat split; auto.
        rewrite no_bracket_cons, Hb. unfold is_bracket. now rewrite El, Er.
    + destruct (c =? rbracket) eqn:Er; [|discriminate].
      apply N.eqb_eq in Er. subst c. intros H.
      destruct (IHo H) as (segs & tail & -> & Hok).
      now exists segs, tail.
Qed.

Lemma simple_line_parse (line : str) :
  simple_line line = true ->
  exists segs tail, line = render segs tail /\ line_ok segs tail = true.
Proof. apply simple_from_parse. Qed.

Lemma split_close_none (s : str) :
  no_close s = true -> split cat_close s = [s].
Proof.
  induction s as [|c s IH]; [reflexivity|].
  cbn [no_close forallb]. intros H. apply andb_true_iff in H.
  destruct H as [Hc H]. rewrite split_miss, (IH H); [reflexivity|].
  cbn [cat_close starts_with]. apply negb_true_iff in Hc.
  rewrite N.eqb_sym in Hc. unfold rbracket in Hc. now rewrite Hc.
Qed.

Lemma split_close_pre (a r : str) :
  no_close a = true ->
  split cat_close (a ++ cat_close ++ r) = a :: split cat_close r.
Proof.
  induction a as [|c a IH]; [intros _; cbn [app]; now apply split_hit|].
  cbn [no_close forallb]. intros H. apply andb_true_iff in H.
  destruct H as [Hc H]. cbn [app]. rewrite split_miss, (IH H); [reflexivity|].
  cbn [cat_close starts_with]. apply negb_true_iff in Hc.
  rewrite N.eqb_sym in Hc. unfold rbracket in Hc. now rewrite Hc.
Qed.

Lemma line_ok_cons (sg : seg) (segs : list seg) (tail : str) :
  line_ok (sg :: segs) tail
  = no_bracket (fst sg) && no_bracket (snd sg) && line_ok segs tail.
Proof. unfold line_ok, seg_ok. cbn [forallb]. now rewrite !andb_assoc. Qed.

Lemma line_ok_nil (tail : str) : line_ok [] tail = no_bracket tail.
Proof. reflexivity. Qed.

Ltac split_ok H :=
  rewrite line_ok_cons in H;
  let H1 := fresh "Hp" in let H2 := fresh "Hb" in let H3 := fresh "Hok" in
  apply andb_true_iff in H; destruct H as [H H3];
  apply andb_true_iff in H; destruct H as [H1 H2].

(** The fragments of a simple line are its segments, each with its
    bracket pair, and the last text. *)
Lemma split_into_cats_render (segs : list seg) (tail : str) :
  line_ok segs tail = true ->
  split_into_cats (render segs tail)
  = map frag_of segs ++ [tail ++ cat_close].
Proof.
  unfold split_into_cats. induction segs as [|[p b] segs IH]; intros H.
  - rewrite line_ok_nil in H. cbn [render map app].
    now rewrite split_close_none by now apply no_bracket_no_close.
  - split_ok H. cbn [fst snd] in *. cbn [render]. unfold frag_of at 1.
    unfold bracketed. cbn [fst snd].
    replace ((p ++ cat_begin ++ b ++ cat_close) ++ render segs tail)
      with ((p ++ cat_begin ++ b) ++ cat_close ++ render segs tail)
      by now rewrite <- !app_assoc.
    rewrite split_close_pre.
    + cbn [map app]. rewrite (IH Hok). unfold frag_of, bracketed. cbn [fst snd].
      now rewrite <- !app_assoc.
    + unfold no_close. rewrite !forallb_app.
      fold (no_close p) (no_close b).
      now rewrite (no_bracket_no_close _ Hp), (no_bracket_no_close _ Hb).
Qed.

Lemma fragments_render (segs : list seg) (tail : str) :
  line_ok segs tail = true ->
  removelast (split_into_cats (render segs tail)) = map frag_of segs
  /\ last (split_into_cats (render segs tail)) [] = tail ++ cat_close.
Proof.
  intros H. rewrite (split_into_cats_render _ _ H).
  now rewrite removelast_last, last_last.
Qed.

Lemma find_cat_no_open (s : str) : no_open s = true -> find_cat s = None.
Proof.
  intros H. rewrite <- (app_nil_r s). rewrite find_cat_skip by exact H.
  now destruct (no_newline s).
Qed.

Lemma starts_with_open_no_open (q t : str) :
  no_open t = true -> starts_with (lbracket :: q) t = false.
Proof.
  destruct t as [|c t]; [reflexivity|]. cbn [no_open forallb starts_with].
  intros H. apply andb_true_iff in H. destruct H as [Hc _].
  apply negb_true_iff in Hc. rewrite N.eqb_sym in Hc. now rewrite Hc.
Qed.

Lemma starts_with_body (q b r : str) :
  no_bracket q = true -> no_bracket b = true ->
  starts_with q (b ++ rbracket :: r) = starts_with q b.
Proof.
  intros Hq. revert b. induction q as [|a q IH]; intros b Hb; [reflexivity|].
  rewrite no_bracket_cons in Hq. apply andb_true_iff in Hq. destruct Hq as [Ha Hq].
  destruct b as [|c b]; cbn [app starts_with].
  - unfold is_bracket in Ha. apply negb_true_iff, orb_false_iff in Ha.
    destruct Ha as [_ Ha]. now rewrite Ha.
  - rewrite no_bracket_cons in Hb. apply andb_true_iff in Hb.
    destruct Hb as [_ Hb]. now rewrite (IH Hq b Hb).
Qed.

Lemma marker_bracketed (name : str) :
  marker name = bracketed (cat_prefix ++ name).
Proof. reflexivity. Qed.

Lemma no_open_body_close (b : str) :
  no_bracket b = true -> no_open (b ++ cat_close) = true.
Proof.
  intros H. unfold no_open. rewrite forallb_app.
  now rewrite (no_bracket_no_open _ H).
Qed.

Lemma match_cat_open_one (t : str) :
  no_open t = true -> match_cat (lbracket :: t) = None.
Proof.
  intros H. unfold match_cat.
  change cat_open with (lbracket :: lbracket :: cat_prefix).
  rewrite starts_with_cons.
  now rewrite (starts_with_open_no_open _ _ H), andb_false_r.
Qed.

Lemma match_cat_pair (b : str) :
  no_bracket b = true -> starts_with cat_prefix b = false ->
  match_cat (lbracket :: lbracket :: b ++ cat_close) = None.
Proof.
  intros Hb E. unfold match_cat.
  change cat_open with (lbracket :: lbracket :: cat_prefix).
  rewrite !starts_with_cons, !N.eqb_refl. cbn [andb].
  change cat_close with (rbracket :: [rbracket]).
  rewrite starts_with_body by auto. now rewrite E.
Qed.

(** What a fragment of a simple line yields: its bracket pair, if the
    pair is a category marker. *)
Lemma find_cat_frag (p b : str) :
  no_bracket p = true -> no_bracket b = true -> no_newline p = true ->
  find_cat (frag_of (p, b))
  = if starts_with cat_prefix b then Some (bracketed b) else None.
Proof.
  intros Hp Hb Hnl. unfold frag_of. cbn [fst snd].
  rewrite find_cat_skip by now apply no_bracket_no_open. rewrite Hnl.
  destruct (starts_with cat_prefix b) eqn:E.
  - destruct (starts_with_inv _ _ E) as [name ->].
    rewrite <- marker_bracketed. rewrite <- (app_nil_r (marker name)) at 1.
    rewrite find_cat_marker.
    + now destruct (no_newline name).
    + rewrite no_bracket_app in Hb. now apply andb_true_iff in Hb.
  - unfold bracketed. cbn [cat_begin app].
    rewrite find_cat_cons by discriminate.
    rewrite find_cat_cons by discriminate.
    rewrite find_cat_no_open by now apply no_open_body_close.
    rewrite match_cat_open_one by now apply no_open_body_close.
    now rewrite match_cat_pair.
Qed.

(** *** Removal on a simple line *)

Lemma bracketed_unfold (b r : str) :
  bracketed b ++ r = lbracket :: lbracket :: b ++ rbracket :: rbracket :: r.
Proof.
  unfold bracketed. cbn [cat_begin cat_close app].
  now rewrite <- app_assoc.
Qed.

Lemma bracketed_cons (b : str) :
  bracketed b = lbracket :: (lbracket :: b ++ cat_close).
Proof. reflexivity. Qed.

Lemma body_prefix_eq (bd b x r : str) :
  no_bracket bd = true -> no_bracket b = true ->
  starts_with (bd ++ rbracket :: x) (b ++ rbracket :: r) = true -> bd = b.
Proof.
  revert b. induction bd as [|a bd IH]; intros b Hbd Hb H.
  - destruct b as [|c b]; [reflexivity|]. exfalso.
    cbn [app] in H. rewrite starts_with_cons in H.
    apply andb_true_iff in H. destruct H as [H _]. apply N.eqb_eq in H. subst c.
    now rewrite no_bracket_cons in Hb.
  - rewrite no_bracket_cons in Hbd. apply andb_true_iff in Hbd.
    destruct Hbd as [Ha Hbd]. destruct b as [|c b]; cbn [app] in H;
      rewrite starts_with_cons in H; apply andb_true_iff in H;
      destruct H as [Hac H]; apply N.eqb_eq in Hac; subst a.
    + now exfalso.
    + rewrite no_bracket_cons in Hb. apply andb_true_iff in Hb.
      destruct Hb as [_ Hb]. now rewrite (IH b Hbd Hb H).
Qed.

Lemma starts_with_bracketed (bd b r : str) :
  no_bracket bd = true -> no_bracket b = true ->
  starts_with (bracketed bd) (bracketed b ++ r) = str_eqb b bd.
Proof.
  intros Hbd Hb. destruct (str_eqb b bd) eqn:E.
  - apply str_eqb_true in E. subst. apply starts_with_app.
  - apply str_eqb_false in E.
    destruct (starts_with (bracketed bd) (bracketed b ++ r)) eqn:Es; [|reflexivity].
    exfalso. apply E. symmetry.
    rewrite <- (app_nil_r (bracketed bd)) in Es. rewrite !bracketed_unfold in Es.
    rewrite !starts_with_cons, !N.eqb_refl in Es. cbn [andb] in Es.
    exact (body_prefix_eq _ _ _ _ Hbd Hb Es).
Qed.

Lemma starts_with_open_body (q b r : str) :
  no_bracket b = true ->
  starts_with (lbracket :: q) (b ++ rbracket :: r) = false.
Proof.
  intros Hb. destruct b as [|c b]; [reflexivity|]. cbn [app].
  rewrite starts_with_cons. rewrite no_bracket_cons in Hb.
  apply andb_true_iff in Hb. destruct Hb as [Hc _]. unfold is_bracket in Hc.
  apply negb_true_iff, orb_false_iff in Hc. destruct Hc as [Hc _].
  rewrite N.eqb_sym in Hc. now rewrite Hc.
Qed.

Lemma del_body_cons (bd p b : str) (segs : list seg) (tail : str) :
  del_body bd ((p, b) :: segs) tail
  = if str_eqb b bd then push p (del_body bd segs tail)
    else ((p, b) :: fst (del_body bd segs tail), snd (del_body bd segs tail)).
Proof. cbn [del_body]. now destruct (del_body bd segs tail). Qed.

(** Removing a bracket pair from a simple line removes the segments
    that hold it and joins the texts around them. *)
Lemma replace_render (bd : str) (segs : list seg) (tail : str) :
  no_bracket bd = true -> line_ok segs tail = true ->
  replace (bracketed bd) [] (render segs tail)
  = render (fst (del_body bd segs tail)) (snd (del_body bd segs tail)).
Proof.
  intros Hbd. induction segs as [|[p b] segs IH]; intros H.
  - rewrite line_ok_nil in H. cbn [del_body fst snd render].
    rewrite <- (app_nil_r tail) at 1. rewrite bracketed_cons.
    rewrite replace_skip_no_open by now apply no_bracket_no_open.
    now rewrite replace_nil, app_nil_r.
  - split_ok H. cbn [fst snd] in *. specialize (IH Hok).
    cbn [render]. unfold frag_of. cbn [fst snd]. rewrite <- app_assoc.
    rewrite bracketed_cons at 1.
    rewrite replace_skip_no_open by now apply no_bracket_no_open.
    rewrite <- bracketed_cons. rewrite del_body_cons.
    pose proof (starts_with_bracketed bd b (render segs tail) Hbd Hb) as Hs.
    destruct (str_eqb b bd) eqn:E.
    + apply str_eqb_true in E. subst b.
      rewrite replace_hit by discriminate. cbn [app].
      now rewrite IH, render_push.
    + rewrite bracketed_unfold in Hs |- *.
      rewrite replace_miss by exact Hs.
      rewrite replace_miss.
      * change (b ++ rbracket :: rbracket :: render segs tail)
          with (b ++ cat_close ++ render segs tail).
        rewrite app_assoc, bracketed_cons.
        rewrite replace_skip_no_open by now apply no_open_body_close.
        rewrite <- bracketed_cons, IH. cbn [fst snd].
        rewrite render_cons. now rewrite <- app_assoc.
      * rewrite bracketed_cons, starts_with_cons, N.eqb_refl. cbn [andb].
        now apply starts_with_open_body.
Qed.

Lemma push_bodies (p : str) (l : list seg * str) :
  map snd (fst (push p l)) = map snd (fst l).
Proof. now destruct l as [[|[p' b] r] t]. Qed.

Lemma line_ok_del (bd : str) (segs : list seg) (tail : str) :
  line_ok segs tail = true ->
  line_ok (fst (del_body bd segs tail)) (snd (del_body bd segs tail)) = true.
Proof.
  induction segs as [|[p b] segs IH]; intros H; [exact H|].
  split_ok H. cbn [fst snd] in *. specialize (IH Hok). rewrite del_body_cons.
  destruct (str_eqb b bd).
  - now apply line_ok_push.
  - cbn [fst snd]. rewrite line_ok_cons. cbn [fst snd]. now rewrite Hp, Hb, IH.
Qed.

Lemma del_body_bodies (bd : str) (segs : list seg) (tail : str) (b : str) :
  In b (map snd (fst (del_body bd segs tail))) ->
  In b (map snd segs) /\ b <> bd.
Proof.
  induction segs as [|[p b'] segs IH]; [easy|].
  rewrite del_body_cons. destruct (str_eqb b' bd) eqn:E.
  - rewrite push_bodies. intros H. destruct (IH H). split; [now right|assumption].
  - cbn [fst map snd]. intros [<-|H].
    + split; [now left|]. now apply str_eqb_false.
    + destruct (IH H). split; [now right|assumption].
Qed.

Lemma bracketed_inj (a b : str) : bracketed a = bracketed b -> a = b.
Proof.
  unfold bracketed. intros H. apply app_inv_head in H.
  now apply app_inv_tail in H.
Qed.

(** Removing bracket pairs from a simple line leaves a simple line,
    with no pair that was not there and none of the removed ones. *)
Lemma remove_all_render (ds : list str) (segs : list seg) (tail : str) :
  Forall is_pair ds -> line_ok segs tail = true ->
  exists segs' tail',
    remove_all ds (render segs tail) = render segs' tail'
    /\ line_ok segs' tail' = true
    /\ forall b, In b (map snd segs') ->
                 In b (map snd segs) /\ ~ In (bracketed b) ds.
Proof.
  intros Hds. revert segs tail.
  induction Hds as [|d ds (bd & -> & Hbd) _ IH]; intros segs tail Hok.
  - exists segs, tail. repeat split; auto.
  - cbn [remove_all fold_left]. fold (remove_all ds).
    rewrite (replace_render bd segs tail Hbd Hok).
    destruct (IH _ _ (line_ok_del bd segs tail Hok)) as (segs' & tail' & He & Hok' & Hin).
    exists segs', tail'. split; [exact He|]. split; [exact Hok'|].
    intros b Hb. destruct (Hin b Hb) as [Hdel Hnot].
    destruct (del_body_bodies _ _ _ _ Hdel) as [Hb' Hne]. split; [exact Hb'|].
    intros [Heq|Hd]; [|contradiction].
    apply bracketed_inj in Heq. congruence.
Qed.

Lemma is_cat_is_pair (d : str) : is_cat d -> is_pair d.
Proof.
  intros (name & -> & Hn & _). exists (cat_prefix ++ name).
  split; [apply marker_bracketed|]. now rewrite no_bracket_app, Hn.
Qed.

(** *** Whitespace *)

Lemma is_space_not_bracket (c : N) : is_space c = true -> is_bracket c = false.
Proof.
  intros H. unfold is_bracket.
  destruct (c =? lbracket) eqn:El; [apply N.eqb_eq in El; now subst c|].
  destruct (c =? rbracket) eqn:Er; [apply N.eqb_eq in Er; now subst c|].
  reflexivity.
Qed.

Lemma all_space_no_bracket (s : str) :
  all_space s = true -> no_bracket s = true.
Proof.
  unfold all_space, no_bracket. rewrite !forallb_forall. intros H c Hc.
  now rewrite (is_space_not_bracket c (H c Hc)).
Qed.

Lemma all_space_app (a b : str) :
  all_space (a ++ b) = all_space a && all_space b.
Proof. apply forallb_app. Qed.

(** What [strip] removes is whitespace on both sides. *)
Lemma strip_spec (s : str) :
  exists a z, s = a ++ strip s ++ z /\ all_space a = true /\ all_space z = true.
Proof.
  unfold strip. destruct (lstrip_by_spec is_space s) as (a & Hs & Ha).
  destruct (rstrip_by_spec is_space (lstrip_by is_space s)) as (z & Hz & Hzs).
  exists a, z. repeat split; auto. now rewrite <- Hz.
Qed.

Lemma bracketed_snoc (b : str) :
  bracketed b = (cat_begin ++ b ++ [rbracket]) ++ [rbracket].
Proof. unfold bracketed. cbn [cat_close]. now rewrite <- !app_assoc. Qed.

(** A bracket pair between whitespace is what [strip] leaves. *)
Lemma strip_bracketed (a b z : str) :
  all_space a = true -> all_space z = true ->
  strip (a ++ bracketed b ++ z) = bracketed b.
Proof.
  intros Ha Hz. unfold strip. rewrite lstrip_by_all by exact Ha.
  rewrite bracketed_unfold, lstrip_by_stop by reflexivity.
  rewrite <- bracketed_unfold, rstrip_by_all by exact Hz.
  rewrite bracketed_snoc. now apply rstrip_by_fixed.
Qed.

(** ** Lines the scan leaves in the trailing region *)

Lemma frag_fold_moving (line : str) (fs : list str) (st : scan_state) :
  should_be_moving (fold_left (frag_step line) fs st)
  = should_be_moving st
    || existsb (fun f => differs (strip line) (find_cat f)) fs.
Proof.
  revert st. induction fs as [|f fs IH]; intros st; cbn [fold_left existsb].
  - now rewrite orb_false_r.
  - now rewrite IH, frag_step_moving, orb_assoc.
Qed.

Lemma line_step_moving (st : scan_state) (line : str) :
  should_be_moving (line_step st line)
  = should_be_moving st
    || existsb (fun f => differs (strip line) (find_cat f))
         (removelast (split_into_cats line))
    || negb (str_eqb (strip (last (split_into_cats line) [])) cat_close).
Proof. unfold line_step. now rewrite tail_step_moving, frag_fold_moving. Qed.

(** A line after which the state is still trailing is, for each
    category one of its fragments yields, that marker between
    whitespace. *)
Lemma trailing_line_shape (st : scan_state) (line f c : str) :
  should_be_moving (line_step st line) = false ->
  In f (removelast (split_into_cats line)) ->
  find_cat f = Some c ->
  exists a b z,
    line = a ++ bracketed b ++ z /\ c = bracketed b /\ no_bracket b = true
    /\ all_space a = true /\ all_space z = true.
Proof.
  rewrite line_step_moving. intros H Hf Hc.
  apply orb_false_iff in H. destruct H as [H _].
  apply orb_false_iff in H. destruct H as [_ H].
  assert (Hd : differs (strip line) (find_cat f) = false).
  { destruct (differs (strip line) (find_cat f)) eqn:E; [|reflexivity].
    rewrite <- H. symmetry. apply existsb_exists. now exists f. }
  rewrite Hc in Hd. cbn [differs] in Hd. apply negb_false_iff, str_eqb_true in Hd.
  destruct (find_cat_some _ _ Hc) as (_ & name & _ & _ & Hm & Hn & _).
  destruct (strip_spec line) as (a & z & Hl & Ha & Hz).
  exists a, (cat_prefix ++ name), z. rewrite <- marker_bracketed, <- Hm.
  split; [congruence|]. split; [reflexivity|].
  split; [now rewrite no_bracket_app, Hn|]. now split.
Qed.

Lemma replace_pair_other (bd a b z : str) :
  no_bracket bd = true -> no_bracket b = true ->
  all_space a = true -> all_space z = true -> b <> bd ->
  replace (bracketed bd) [] (a ++ bracketed b ++ z) = a ++ bracketed b ++ z.
Proof.
  intros Hbd Hb Ha Hz Hne.
  assert (Hok : line_ok [(a, b)] z = true).
  { rewrite line_ok_cons. change (line_ok [] z) with (no_bracket z).
    cbn [fst snd].
    now rewrite Hb, (all_space_no_bracket _ Ha), (all_space_no_bracket _ Hz). }
  pose proof (replace_render bd [(a, b)] z Hbd Hok) as H.
  rewrite del_body_cons in H. apply str_eqb_false in Hne. rewrite Hne in H.
  cbn [del_body fst snd render] in H. unfold frag_of in H. cbn [fst snd] in H.
  now rewrite <- app_assoc in H.
Qed.

Lemma remove_all_pair_other (ds : list str) (a b z : str) :
  Forall is_pair ds -> no_bracket b = true ->
  all_space a = true -> all_space z = true -> ~ In (bracketed b) ds ->
  remove_all ds (a ++ bracketed b ++ z) = a ++ bracketed b ++ z.
Proof.
  intros Hds Hb Ha Hz. induction Hds as [|d ds (bd & -> & Hbd) _ IH]; intros Hn.
  - reflexivity.
  - cbn [remove_all fold_left]. fold (remove_all ds).
    rewrite replace_pair_other; auto.
    + apply IH. intros H. apply Hn. now right.
    + intros ->. apply Hn. now left.
Qed.

Lemma split_nl_remove_all (ds : list str) (t : str) :
  Forall is_cat ds ->
  split [nl] (remove_all ds t) = map (remove_all ds) (split [nl] t).
Proof.
  intros Hds. revert t. induction Hds as [|d ds Hd _ IH]; intros t.
  - cbn [remove_all fold_left]. now rewrite map_id.
  - cbn [remove_all fold_left]. fold (remove_all ds). rewrite IH.
    rewrite split_nl_replace, map_map; [reflexivity| |now apply is_cat_no_newline].
    destruct Hd as (name & -> & _). discriminate.
Qed.

(** The lines of the page when [move_cats] returns: the lines of the
    stripped text, then the detected categories; the stripped text has
    the lines of the text before the strip but for empty lines at the
    end. *)
Lemma move_text_lines (text : str) :
  exists init k,
    split [nl] (move_text text) = init ++ detected_categories (scan text)
    /\ map (remove_all (detected_categories (scan text))) (split [nl] text)
       = init ++ repeat [] k.
Proof.
  destruct (rstrip_nl_spec (page_text (scan text))) as [k Hk].
  exists (split [nl] (rstrip_nl (page_text (scan text)))), k. split.
  - rewrite move_text_block. apply split_nl_block.
    eapply Forall_impl; [|apply scan_is_cat]. apply is_cat_no_newline.
  - rewrite <- split_nl_remove_all by apply scan_is_cat.
    rewrite <- scan_text. rewrite Hk at 1. apply split_nl_app_repeat.
Qed.

Lemma nth_error_app_repeat_nil (init : list str) (k n : nat) (l : str) :
  nth_error (init ++ repeat [] k) n = Some l -> l <> [] ->
  nth_error init n = Some l.
Proof.
  intros H Hl. destruct (Nat.lt_ge_cases n (length init)) as [Hlt|Hge].
  - now rewrite nth_error_app1 in H.
  - rewrite nth_error_app2 in H by assumption.
    apply nth_error_In, repeat_spec in H. congruence.
Qed.

(** C3 (amended). A category marker the scan classifies as trailing
    stays where it is, its line unchanged at the same place among the
    lines of the output, provided the same marker string is not among
    the relocated ones; when it is, the removal over the whole text
    takes the trailing occurrence away as well. *)
Theorem trailing_marker_untouched
    (text : str) (before : list str) (line : str) (after : list str)
    (fragment category : str) :
  split [nl] text = before ++ line :: after ->
  In fragment (removelast (split_into_cats line)) ->
  find_cat fragment = Some category ->
  should_be_moving
    (fold_left line_step (rev after ++ [line]) (init_state text)) = false ->
  ~ In category (detected_categories (scan text)) ->
  nth_error (split [nl] (move_text text)) (length before) = Some line.
Proof.
  intros Hsplit Hf Hc Htrail Hnot.
  rewrite fold_left_app in Htrail. cbn [fold_left] in Htrail.
  destruct (trailing_line_shape _ _ _ _ Htrail Hf Hc)
    as (a & b & z & Hl & Hcb & Hb & Ha & Hz).
  destruct (move_text_lines text) as (init & k & Hout & Hlines).
  assert (Hkeep : remove_all (detected_categories (scan text)) line = line).
  { rewrite Hl. apply remove_all_pair_other; auto.
    - eapply Forall_impl; [|apply scan_is_cat]. apply is_cat_is_pair.
    - now rewrite <- Hcb. }
  assert (Hn : nth_error (init ++ repeat [] k) (length before) = Some line).
  { rewrite <- Hlines, Hsplit, map_app. cbn [map]. rewrite Hkeep.
    rewrite nth_error_app2 by (rewrite length_map; lia).
    now rewrite length_map, Nat.sub_diag. }
  apply nth_error_app_repeat_nil in Hn.
  - rewrite Hout. rewrite nth_error_app1; [exact Hn|].
    apply nth_error_Some. congruence.
  - rewrite Hl. rewrite bracketed_cons. now destruct a.
Qed.

Lemma trailing_marker_untouched_witness :
  let l0 := lit "Intro text [[Category:X]]" in
  let l1 := lit "Middle content." in
  let l2 := lit "[[Category:Y]]" in
  let text := unlines [l0; l1; l2] in
  detected_categories (scan text) = [lit "[[Category:X]]"]
  /\ nth_error (split [nl] (move_text text)) 2 = Some l2.
Proof.
  cbv zeta. split; [reflexivity|].
  apply (trailing_marker_untouched
           (unlines [lit "Intro text [[Category:X]]"; lit "Middle content.";
                     lit "[[Category:Y]]"])
           [lit "Intro text [[Category:X]]"; lit "Middle content."]
           (lit "[[Category:Y]]") []
           (lit "[[Category:Y]]") (lit "[[Category:Y]]")).
  - reflexivity.
  - left. reflexivity.
  - reflexivity.
  - reflexivity.
  - vm_compute. intros [H|[]]. discriminate.
Defined.

(** C3 (counterexample). The second line [[[Category:Y]]] is passed
    while the state is trailing; the same marker on the first line is
    content and is relocated, and the removal empties the second line
    too. *)
Lemma trailing_marker_removed :
  let l0 := lit "[[Category:Y]] a" in
  let l1 := lit "[[Category:Y]]" in
  let l2 := lit "[[Category:Z]]" in
  let text := unlines [l0; l1; l2] in
  split [nl] text = [l0; l1; l2]
  /\ removelast (split_into_cats l1) = [l1]
  /\ find_cat l1 = Some l1
  /\ should_be_moving (fold_left line_step [l2; l1] (init_state text)) = false
  /\ split [nl] (move_text text) = [lit " a"; lit ""; l2; l1]
  /\ nth_error (split [nl] (move_text text)) 1 <> Some l1.
Proof. vm_compute. repeat split. discriminate. Qed.

(** ** The scan of one line *)

Lemma line_step_flips (st : scan_state) (line : str) :
  should_be_moving (line_step st line) = should_be_moving st || flips_line line.
Proof. rewrite line_step_moving. unfold flips_line. now rewrite orb_assoc. Qed.

Lemma tail_step_detected (st : scan_state) (lc : str) :
  detected_categories (tail_step st lc) = detected_categories st.
Proof. unfold tail_step. now destruct (_ && _). Qed.

(** In the content state every category a fragment yields is
    collected. *)
Lemma frag_fold_content (line : str) (fs : list str) (st : scan_state) :
  should_be_moving st = true ->
  detected_categories (fold_left (frag_step line) fs st)
  = detected_categories st ++ flat_map yield fs.
Proof.
  revert st. induction fs as [|f fs IH]; intros st Hm; cbn [fold_left flat_map].
  - now rewrite app_nil_r.
  - rewrite IH by now rewrite frag_step_moving, Hm.
    unfold yield at 2. destruct (find_cat f) as [c|] eqn:E.
    + rewrite (frag_step_content _ _ _ _ E Hm). cbn [detected_categories].
      now rewrite <- app_assoc.
    + unfold frag_step. now rewrite E.
Qed.

Lemma line_step_content (st : scan_state) (line : str) :
  should_be_moving st = true ->
  detected_categories (line_step st line)
  = detected_categories st ++ cats_of line.
Proof.
  intros Hm. unfold line_step. rewrite tail_step_detected.
  now apply frag_fold_content.
Qed.

(** A line none of whose fragments yields a category adds nothing. *)
Lemma frag_fold_dead (line : str) (fs : list str) (st : scan_state) :
  flat_map yield fs = [] ->
  detected_categories (fold_left (frag_step line) fs st) = detected_categories st.
Proof.
  revert st. induction fs as [|f fs IH]; intros st H; [reflexivity|].
  cbn [fold_left flat_map] in *. apply app_eq_nil in H. destruct H as [Hf H].
  rewrite (IH _ H). unfold yield in Hf. unfold frag_step.
  now destruct (find_cat f).
Qed.

Lemma line_step_dead (st : scan_state) (line : str) :
  cats_of line = [] ->
  detected_categories (line_step st line) = detected_categories st.
Proof.
  intros H. unfold line_step. rewrite tail_step_detected.
  now apply frag_fold_dead.
Qed.

(** While the state stays trailing nothing is collected. *)
Lemma frag_fold_trailing (line : str) (fs : list str) (st : scan_state) :
  should_be_moving (fold_left (frag_step line) fs st) = false ->
  detected_categories (fold_left (frag_step line) fs st) = detected_categories st.
Proof.
  revert st. induction fs as [|f fs IH]; intros st H; [reflexivity|].
  cbn [fold_left] in *. rewrite (IH _ H).
  rewrite frag_fold_moving in H. apply orb_false_iff in H. destruct H as [H _].
  unfold frag_step in *. cbv zeta in *.
  destruct (find_cat f) as [c|]; [|reflexivity].
  destruct (differs _ _ && _); cbn [should_be_moving] in H; [discriminate|].
  destruct (should_be_moving st); [discriminate|reflexivity].
Qed.

Lemma line_step_trailing (st : scan_state) (line : str) :
  should_be_moving (line_step st line) = false ->
  detected_categories (line_step st line) = detected_categories st.
Proof.
  unfold line_step. rewrite tail_step_moving, tail_step_detected.
  intros H. apply orb_false_iff in H. destruct H as [H _].
  now apply frag_fold_trailing.
Qed.

(** *** The fragments of a simple line *)

Lemma find_cat_pair (b : str) :
  no_bracket b = true ->
  find_cat (bracketed b)
  = if starts_with cat_prefix b then Some (bracketed b) else None.
Proof. intros Hb. now apply (find_cat_frag [] b). Qed.

Lemma find_cat_frag_none (p b : str) :
  no_bracket p = true -> no_bracket b = true ->
  starts_with cat_prefix b = false ->
  find_cat (frag_of (p, b)) = None.
Proof.
  intros Hp Hb E. unfold frag_of. cbn [fst snd].
  rewrite find_cat_skip by now apply no_bracket_no_open.
  rewrite (find_cat_pair b Hb), E. now destruct (no_newline p).
Qed.

Lemma no_newline_render_cons (p b : str) (segs : list seg) (tail : str) :
  no_newline (render ((p, b) :: segs) tail) = true ->
  no_newline p = true /\ no_newline (render segs tail) = true.
Proof.
  cbn [render]. unfold frag_of, bracketed. cbn [fst snd].
  rewrite !no_newline_app. intros H.
  repeat match goal with
         | H : _ && _ = true |- _ => apply andb_true_iff in H; destruct H
         end.
  now split.
Qed.

Lemma cats_of_render (segs : list seg) (tail : str) :
  line_ok segs tail = true -> no_newline (render segs tail) = true ->
  cats_of (render segs tail) = seg_cats segs.
Proof.
  intros Hok Hnl. unfold cats_of.
  destruct (fragments_render segs tail Hok) as [-> _].
  induction segs as [|[p b] segs IH]; [reflexivity|].
  split_ok Hok. cbn [fst snd] in *.
  destruct (no_newline_render_cons _ _ _ _ Hnl) as [Hpn Hrn].
  cbn [map flat_map seg_cats]. fold (seg_cats segs). rewrite (IH Hok0 Hrn).
  f_equal. unfold yield. rewrite find_cat_frag by assumption. cbn [snd].
  now destruct (starts_with cat_prefix b).
Qed.

Lemma first_occurrence (f : N -> bool) (a p : str) (c : N) (u v : str) :
  forallb (fun x => negb (f x)) a = true ->
  forallb (fun x => negb (f x)) p = true ->
  f c = true ->
  a ++ c :: u = p ++ c :: v -> a = p /\ u = v.
Proof.
  intros Ha Hp Hc. revert p Hp. induction a as [|x a IH]; intros p Hp H.
  - destruct p as [|y p]; cbn [app] in H.
    + injection H as ->. now split.
    + injection H as <- _. cbn [forallb] in Hp. now rewrite Hc in Hp.
  - cbn [forallb] in Ha. apply andb_true_iff in Ha. destruct Ha as [Hx Ha].
    destruct p as [|y p]; cbn [app] in H.
    + injection H as -> _. now rewrite Hc in Hx.
    + injection H as <- H. cbn [forallb] in Hp. apply andb_true_iff in Hp.
      destruct Hp as [_ Hp]. destruct (IH Ha p Hp H) as [-> ->]. now split.
Qed.

Lemma all_space_render (segs : list seg) (tail : str) :
  all_space (render segs tail) = true -> segs = [] /\ all_space tail = true.
Proof.
  destruct segs as [|[p b] segs]; [now split|].
  rewrite render_cons, all_space_app. intros H.
  apply andb_true_iff in H. now destruct H as [_ H].
Qed.

Lemma strip_close (t : str) :
  all_space t = true -> strip (t ++ cat_close) = cat_close.
Proof. intros H. unfold strip. now rewrite lstrip_by_all. Qed.

Lemma strip_close_inv (t : str) :
  no_bracket t = true -> strip (t ++ cat_close) = cat_close ->
  all_space t = true.
Proof.
  intros Hb H. destruct (strip_spec (t ++ cat_close)) as (a & z & Heq & Ha & _).
  rewrite H in Heq. change cat_close with (rbracket :: [rbracket]) in Heq.
  cbn [app] in Heq.
  apply (first_occurrence is_bracket) in Heq;
    [now destruct Heq as [-> _]|exact Hb| |reflexivity].
  exact (all_space_no_bracket _ Ha).
Qed.

(** If the first fragment of a simple line yields a marker equal to
    the stripped line, the line is that marker between whitespace. *)
Lemma first_frag_whole (p b : str) (rest : list seg) (tail : str) :
  line_ok ((p, b) :: rest) tail = true ->
  strip (render ((p, b) :: rest) tail) = bracketed b ->
  rest = [] /\ all_space p = true /\ all_space tail = true.
Proof.
  intros Hok H. split_ok Hok. cbn [fst snd] in *.
  destruct (strip_spec (render ((p, b) :: rest) tail)) as (a & z & Heq & Ha & Hz).
  rewrite H, render_cons, bracketed_unfold in Heq.
  apply (first_occurrence is_bracket) in Heq;
    [|exact Hp|exact (all_space_no_bracket _ Ha)|reflexivity].
  destruct Heq as [-> Heq]. injection Heq as Heq.
  apply app_inv_head in Heq. change cat_close with [rbracket; rbracket] in Heq.
  injection Heq as Heq. rewrite <- Heq in Hz.
  destruct (all_space_render _ _ Hz) as [-> Ht]. now repeat split.
Qed.

Lemma render_one (a b z : str) : render [(a, b)] z = a ++ bracketed b ++ z.
Proof. cbn [render]. unfold frag_of. cbn [fst snd]. now rewrite <- app_assoc. Qed.

(** The lines of the trailing shape do not end the trailing state. *)
Lemma te_shape_quiet (l : str) : te_shape l -> flips_line l = false.
Proof.
  intros [t Ht|a b z Ha Hz Hn Hb Hc]; unfold flips_line.
  - destruct (fragments_render [] t (all_space_no_bracket _ Ht)) as [H1 H2].
    cbn [render] in H1, H2. rewrite H1, H2.
    cbn [map existsb orb]. now rewrite strip_close, str_eqb_refl.
  - rewrite <- render_one.
    destruct (fragments_render [(a, b)] z) as [-> ->].
    { rewrite line_ok_cons. change (line_ok [] z) with (no_bracket z).
      cbn [fst snd].
      now rewrite Hb, (all_space_no_bracket _ Ha), (all_space_no_bracket _ Hz). }
    cbn [map existsb]. rewrite find_cat_frag, Hc;
      auto using all_space_no_bracket.
    rewrite render_one, strip_bracketed by assumption. cbn [differs].
    now rewrite !str_eqb_refl, strip_close.
Qed.

(** A simple line that does not end the trailing state has the
    trailing shape. *)
Lemma quiet_te_shape (l : str) :
  parsed l -> flips_line l = false -> te_shape l.
Proof.
  intros (segs & tail & -> & Hok & Hnl). unfold flips_line.
  destruct (fragments_render segs tail Hok) as [-> ->]. intros H.
  apply orb_false_iff in H. destruct H as [Hf Ht].
  apply negb_false_iff, str_eqb_true in Ht.
  destruct segs as [|[p b] rest].
  - apply te_blank. cbn [render]. apply strip_close_inv; [exact Hok|exact Ht].
  - cbn [map existsb] in Hf. apply orb_false_iff in Hf. destruct Hf as [Hf _].
    destruct (no_newline_render_cons _ _ _ _ Hnl) as [Hpn _].
    pose proof Hok as Hok'. split_ok Hok'. cbn [fst snd] in *.
    rewrite find_cat_frag in Hf by assumption.
    destruct (starts_with cat_prefix b) eqn:Ec; [|discriminate].
    cbn [differs] in Hf. apply negb_false_iff, str_eqb_true in Hf.
    destruct (first_frag_whole _ _ _ _ Hok Hf) as (-> & Hps & Hts).
    rewrite render_one. now apply te_cat.
Qed.

Lemma replace_no_open (q l : str) :
  no_open l = true -> replace (lbracket :: q) [] l = l.
Proof.
  intros H. rewrite <- (app_nil_r l) at 1.
  now rewrite replace_skip_no_open, replace_nil, app_nil_r.
Qed.

Lemma all_space_no_open (s : str) : all_space s = true -> no_open s = true.
Proof. intros H. now apply no_bracket_no_open, all_space_no_bracket. Qed.

Lemma replace_pair_same (a b z : str) :
  all_space a = true -> all_space z = true ->
  replace (bracketed b) [] (a ++ bracketed b ++ z) = a ++ z.
Proof.
  intros Ha Hz. rewrite bracketed_cons at 1.
  rewrite replace_skip_no_open by now apply all_space_no_open.
  rewrite <- bracketed_cons, replace_hit by discriminate. cbn [app].
  rewrite bracketed_cons. now rewrite replace_no_open by now apply all_space_no_open.
Qed.

(** Removing a bracket pair keeps the trailing shape. *)
Lemma te_shape_replace (d l : str) :
  is_pair d -> te_shape l -> te_shape (replace d [] l).
Proof.
  intros (bd & -> & Hbd) [t Ht|a b z Ha Hz Hn Hb Hc].
  - rewrite bracketed_cons, replace_no_open by now apply all_space_no_open.
    now apply te_blank.
  - destruct (list_eq_dec N.eq_dec b bd) as [->|Hne].
    + rewrite replace_pair_same by assumption. apply te_blank.
      now rewrite all_space_app, Ha, Hz.
    + rewrite replace_pair_other by assumption. now apply te_cat.
Qed.

Lemma te_shape_remove_all (ds : list str) (l : str) :
  Forall is_pair ds -> te_shape l -> te_shape (remove_all ds l).
Proof.
  intros Hds. revert l. induction Hds as [|d ds Hd _ IH]; intros l Hl; [exact Hl|].
  cbn [remove_all fold_left]. apply IH. now apply te_shape_replace.
Qed.

(** A detected category, on a line of its own, has the trailing shape. *)
Lemma is_cat_te_shape (d : str) : is_cat d -> te_shape d.
Proof.
  intros (name & -> & Hn & _). rewrite marker_bracketed.
  rewrite <- (app_nil_r (bracketed _)).
  apply (te_cat [] (cat_prefix ++ name) []); auto;
    first [now rewrite no_bracket_app, Hn | apply starts_with_app].
Qed.

(** ** The scan of a simple document *)

Lemma frag_step_flip (line : str) (st : scan_state) (f : str) :
  differs (strip line) (find_cat f) = true ->
  should_be_moving (frag_step line st f) = true
  /\ detected_categories (frag_step line st f)
     = detected_categories st ++ yield f.
Proof.
  intros H. split; [now rewrite frag_step_moving, H, orb_true_r|].
  unfold frag_step, yield. cbv zeta. rewrite H.
  destruct (find_cat f) as [c|]; cbn [detected_categories];
    [|now rewrite app_nil_r].
  now destruct (should_be_moving st).
Qed.

(** A simple line that ends the trailing state has all its categories
    collected: the state flips on its first fragment, if it has one. *)
Lemma line_step_flip_content (st : scan_state) (l : str) :
  parsed l -> flips_line l = true ->
  detected_categories (line_step st l) = detected_categories st ++ cats_of l.
Proof.
  intros (segs & tail & -> & Hok & Hnl) Hflip.
  destruct segs as [|[p b] rest].
  - rewrite line_step_dead; rewrite cats_of_render by assumption;
      [now rewrite app_nil_r|reflexivity].
  - unfold line_step, cats_of. rewrite tail_step_detected.
    destruct (fragments_render _ _ Hok) as [-> _]. cbn [map fold_left flat_map].
    destruct (no_newline_render_cons _ _ _ _ Hnl) as [Hpn _].
    pose proof Hok as Hok'. split_ok Hok'. cbn [fst snd] in *.
    assert (Hd : differs (strip (render ((p, b) :: rest) tail))
                   (find_cat (frag_of (p, b))) = true).
    { destruct (differs _ _) eqn:Hd; [reflexivity|exfalso].
      rewrite find_cat_frag in Hd by assumption.
      destruct (starts_with cat_prefix b) eqn:Ec; [|discriminate].
      cbn [differs] in Hd. apply negb_false_iff, str_eqb_true in Hd.
      destruct (first_frag_whole _ _ _ _ Hok Hd) as (-> & Hps & Hts).
      rewrite render_one in Hflip.
      rewrite (te_shape_quiet _ (te_cat p b tail Hps Hts Hpn Hb Ec)) in Hflip.
      discriminate. }
    destruct (frag_step_flip _ st _ Hd) as [Hm Hdet].
    rewrite frag_fold_content by exact Hm.
    rewrite app_assoc. f_equal. exact Hdet.
Qed.

Lemma scan_content (ls : list str) (st : scan_state) :
  should_be_moving st = true ->
  detected_categories (fold_left line_step ls st)
  = detected_categories st ++ flat_map cats_of ls.
Proof.
  revert st. induction ls as [|l ls IH]; intros st Hm; cbn [fold_left flat_map].
  - now rewrite app_nil_r.
  - rewrite IH by now rewrite line_step_flips, Hm.
    now rewrite line_step_content, <- app_assoc.
Qed.

(** The scan of simple lines from the trailing state: lines of the
    trailing shape, then lines all of whose categories are collected. *)
Lemma scan_trailing (ls : list str) (st : scan_state) :
  Forall parsed ls -> should_be_moving st = false ->
  exists tes rest,
    ls = tes ++ rest /\ Forall te_shape tes
    /\ detected_categories (fold_left line_step ls st)
       = detected_categories st ++ flat_map cats_of rest.
Proof.
  intros Hls. revert st. induction Hls as [|l ls Hl Hls IH]; intros st Hm.
  - exists [], []. cbn. now rewrite app_nil_r.
  - cbn [fold_left]. destruct (flips_line l) eqn:Ef.
    + exists [], (l :: ls). split; [reflexivity|]. split; [constructor|].
      rewrite scan_content by now rewrite line_step_flips, Ef, orb_true_r.
      rewrite line_step_flip_content by assumption.
      cbn [flat_map]. now rewrite <- app_assoc.
    + assert (Hm' : should_be_moving (line_step st l) = false)
        by now rewrite line_step_flips, Hm, Ef.
      destruct (IH _ Hm') as (tes & rest & -> & Htes & Hdet).
      exists (l :: tes), rest. split; [reflexivity|].
      split; [constructor; auto using quiet_te_shape|].
      now rewrite Hdet, line_step_trailing.
Qed.

(** Lines of the trailing shape, then lines that yield no category:
    the scan of such a page collects nothing. *)
Lemma scan_quiet (tes dead : list str) (st : scan_state) :
  Forall te_shape tes -> Forall (fun l => cats_of l = []) dead ->
  should_be_moving st = false ->
  detected_categories (fold_left line_step (tes ++ dead) st)
  = detected_categories st.
Proof.
  intros Htes Hdead. revert st.
  induction Htes as [|l tes Hl _ IH]; intros st Hm; cbn [app fold_left].
  - clear Hm. revert st. induction Hdead as [|l dead Hl _ IH]; intros st;
      [reflexivity|].
    cbn [fold_left]. now rewrite IH, line_step_dead.
  - assert (Hm' : should_be_moving (line_step st l) = false)
      by now rewrite line_step_flips, Hm, te_shape_quiet.
    now rewrite (IH _ Hm'), line_step_trailing.
Qed.

Lemma in_seg_cats (segs : list seg) (b : str) :
  In b (map snd segs) -> starts_with cat_prefix b = true ->
  In (bracketed b) (seg_cats segs).
Proof.
  intros Hin Hc. apply in_map_iff in Hin. destruct Hin as ([p b'] & Hb & Hin).
  cbn [snd] in Hb. subst b'. apply in_flat_map. exists (p, b).
  split; [exact Hin|]. cbn [snd]. rewrite Hc. now left.
Qed.

Lemma yield_dead (segs : list seg) (tail : str) :
  line_ok segs tail = true ->
  (forall b, In b (map snd segs) -> starts_with cat_prefix b = false) ->
  cats_of (render segs tail) = [].
Proof.
  intros Hok Hb. unfold cats_of.
  destruct (fragments_render _ _ Hok) as [-> _].
  induction segs as [|[p b] segs IH]; [reflexivity|].
  split_ok Hok. cbn [fst snd] in *. cbn [map flat_map].
  rewrite IH; auto; [|intros b' Hb'; apply Hb; now right].
  unfold yield. rewrite find_cat_frag_none; auto. apply Hb. now left.
Qed.

(** Once the categories of a simple line have all been removed from
    it, none of its fragments yields a category. *)
Lemma dead_after_removal (ds : list str) (l : str) :
  parsed l -> Forall is_cat ds -> incl (cats_of l) ds ->
  cats_of (remove_all ds l) = [].
Proof.
  intros (segs & tail & -> & Hok & Hnl) Hds Hincl.
  rewrite cats_of_render in Hincl by assumption.
  destruct (remove_all_render ds segs tail) as (segs' & tail' & -> & Hok' & Hin);
    [eapply Forall_impl; [|exact Hds]; apply is_cat_is_pair|exact Hok|].
  apply yield_dead; [exact Hok'|]. intros b Hb.
  destruct (Hin b Hb) as [Hb0 Hnot].
  destruct (starts_with cat_prefix b) eqn:Ec; [|reflexivity].
  exfalso. apply Hnot, Hincl. now apply in_seg_cats.
Qed.

(** ** Running the move twice *)

Lemma simple_doc_parsed (text : str) :
  simple_doc text = true -> Forall parsed (split [nl] text).
Proof.
  unfold simple_doc. rewrite forallb_forall. intros H.
  pose proof (split_nl_lines text) as Hnl. rewrite Forall_forall in *.
  intros l Hl. destruct (simple_line_parse l (H l Hl)) as (segs & tail & Hr & Hok).
  exists segs, tail. auto.
Qed.

Lemma drop_prefix_split {A} (P Q : A -> Prop) (pre suf xs ys : list A) :
  xs ++ ys = pre ++ suf -> Forall P xs -> Forall Q ys ->
  exists a b, suf = a ++ b /\ Forall P a /\ Forall Q b.
Proof.
  revert xs. induction pre as [|c pre IH]; intros xs H Hx Hy.
  - exists xs, ys. auto.
  - destruct xs as [|x xs]; cbn [app] in H.
    + exists [], suf. repeat split; auto. rewrite H in Hy.
      change (c :: pre ++ suf) with ((c :: pre) ++ suf) in Hy.
      now apply Forall_app in Hy.
    + injection H as _ H. inversion Hx; subst. now apply (IH xs).
Qed.

Lemma rev_repeat_nil {A} (x : A) (k : nat) : rev (repeat x k) = repeat x k.
Proof.
  induction k as [|k IH]; [reflexivity|].
  cbn [repeat rev]. rewrite IH. symmetry. apply repeat_cons.
Qed.

(** The second run collects nothing. *)
Lemma second_scan_empty (text : str) :
  simple_doc text = true ->
  detected_categories (scan (move_text text)) = [].
Proof.
  intros Hs. pose proof (simple_doc_parsed text Hs) as Hp.
  apply Forall_rev in Hp.
  destruct (scan_trailing (rev (split [nl] text)) (init_state text) Hp eq_refl)
    as (tes & rest & Hlines & Htes & Hdet).
  fold (scan text) in Hdet. cbn [init_state detected_categories app] in Hdet.
  destruct (move_text_lines text) as (init & k & Hout & Hmap).
  pose proof (scan_is_cat text) as Hcat.
  set (ds := detected_categories (scan text)) in *.
  assert (Hrev : map (remove_all ds) tes ++ map (remove_all ds) rest
                 = repeat [] k ++ rev init).
  { rewrite <- map_app, <- Hlines, map_rev, Hmap, rev_app_distr.
    now rewrite rev_repeat_nil. }
  rewrite Hlines in Hp. apply Forall_app in Hp. destruct Hp as [_ Hprest].
  apply drop_prefix_split with (P := te_shape) (Q := fun l => cats_of l = [])
    in Hrev.
  - destruct Hrev as (a & b & Hinit & Ha & Hb).
    unfold scan. rewrite Hout, rev_app_distr, Hinit, app_assoc.
    rewrite scan_quiet; auto.
    apply Forall_app. split; [|exact Ha].
    apply Forall_rev. eapply Forall_impl; [|exact Hcat]. apply is_cat_te_shape.
  - apply Forall_map. eapply Forall_impl; [|exact Htes].
    intros l Hl. apply te_shape_remove_all; [|exact Hl].
    eapply Forall_impl; [|exact Hcat]. apply is_cat_is_pair.
  - apply Forall_map. rewrite Forall_forall in *. intros l Hl.
    apply dead_after_removal; auto.
    + now apply Forall_forall.
    + rewrite Hdet. intros c Hc. apply in_flat_map. now exists l.
Qed.







(** * Further properties of the code *)

(** ** [split_into_cats] *)

Lemma split_join (sep s : str) :
  sep <> [] -> concat (map (fun p => p ++ sep) (split sep s)) = s ++ sep.
Proof.
  intros Hne. induction s as [|r IH|c r Hc IH] using (pattern_ind sep Hne).
  - cbn. now rewrite app_nil_r.
  - rewrite split_hit by assumption. cbn [map concat app].
    now rewrite IH, <- app_assoc.
  - rewrite split_miss by assumption.
    destruct (split sep r) as [|h t] eqn:E; [now destruct (split_not_nil _ _ E)|].
    cbn [cons_hd map concat] in *. rewrite <- app_assoc in *. cbn [app].
    now rewrite IH.
Qed.

(** X1. The fragments of a line, put end to end, are the line followed
    by one closing pair: the split loses no character, and each fragment
    carries the closing pair that ended it, the last one a pair that the
    line does not hold. *)
Theorem split_into_cats_concat (line : str) :
  concat (split_into_cats line) = line ++ cat_close
  /\ split_into_cats line <> []
  /\ Forall (fun f => exists p, f = p ++ cat_close) (split_into_cats line).
Proof.
  unfold split_into_cats. repeat split.
  - now apply split_join.
  - intros H. apply map_eq_nil in H. now apply split_not_nil in H.
  - apply Forall_map, Forall_forall. intros p _. now exists p.
Qed.

Lemma split_single (sep s p : str) : sep <> [] -> split sep s = [p] -> p = s.
Proof.
  intros Hne H. pose proof (split_join sep s Hne) as Hj. rewrite H in Hj.
  cbn [map concat] in Hj. rewrite app_nil_r in Hj. now apply app_inv_tail in Hj.
Qed.

Lemma split_cons_inv (sep s p : str) (ps : list str) :
  sep <> [] -> split sep s = p :: ps -> ps <> [] ->
  exists s', s = p ++ sep ++ s' /\ split sep s' = ps.
Proof.
  intros Hne. revert p.
  induction s as [|r IH|c r Hc IH] using (pattern_ind sep Hne); intros p H Hps.
  - rewrite split_nil in H. injection H as _ Hnil. now symmetry in Hnil.
  - rewrite split_hit in H by assumption. injection H as <- <-. now exists r.
  - rewrite split_miss in H by assumption.
    destruct (split sep r) as [|h t] eqn:E; [now destruct (split_not_nil _ _ E)|].
    cbn [cons_hd] in H. injection H as <- <-.
    destruct (IH h eq_refl Hps) as (s' & -> & Hs'). now exists s'.
Qed.

Lemma removelast_map {A B} (f : A -> B) (l : list A) :
  removelast (map f l) = map f (removelast l).
Proof.
  induction l as [|a l IH]; [reflexivity|].
  destruct l as [|b l]; [reflexivity|].
  cbn [map removelast] in *. now rewrite IH.
Qed.

(** ** The lines of the trailing region *)

Lemma strip_close_only (t : str) :
  strip (t ++ cat_close) = cat_close -> all_space t = true.
Proof.
  intros H. destruct (strip_spec (t ++ cat_close)) as (a & z & Heq & Ha & Hz).
  rewrite H in Heq. destruct z as [|c z _] using rev_ind.
  - rewrite app_nil_r in Heq. apply app_inv_tail in Heq. now subst.
  - exfalso. change cat_close with ([rbracket] ++ [rbracket]) in Heq at 1.
    rewrite !app_assoc in Heq. apply app_inj_tail in Heq. destruct Heq as [_ <-].
    rewrite all_space_app in Hz. apply andb_true_iff in Hz.
    now destruct Hz as [_ Hz].
Qed.

(** A line that, stripped, is the category one of its fragments yields
    has the trailing shape. *)
Lemma yield_whole_te (l f c : str) :
  no_newline l = true -> find_cat f = Some c -> strip l = c -> te_shape l.
Proof.
  intros Hnl Hc Hs.
  destruct (find_cat_some _ _ Hc) as (_ & name & _ & _ & -> & Hn & _).
  destruct (strip_spec l) as (a & z & Hl & Ha & Hz).
  rewrite Hs, marker_bracketed in Hl.
  assert (Hna : no_newline a = true).
  { rewrite Hl, no_newline_app in Hnl. now apply andb_true_iff in Hnl. }
  assert (Hb : no_bracket (cat_prefix ++ name) = true)
    by now rewrite no_bracket_app, Hn.
  rewrite Hl. exact (te_cat a _ z Ha Hz Hna Hb (starts_with_app _ _)).
Qed.

Lemma quiet_te_shape_any (l : str) :
  no_newline l = true -> flips_line l = false -> te_shape l.
Proof.
  intros Hnl H. unfold flips_line in H.
  apply orb_false_iff in H. destruct H as [Hf Ht].
  apply negb_false_iff, str_eqb_true in Ht.
  unfold split_into_cats in Hf, Ht. rewrite removelast_map in Hf.
  destruct (split cat_close l) as [|p ps] eqn:E; [now destruct (split_not_nil _ _ E)|].
  destruct ps as [|q qs].
  - apply split_single in E; [|discriminate]. subst p. cbn [map last] in Ht.
    apply te_blank. now apply strip_close_only.
  - cbn [removelast map existsb] in Hf. apply orb_false_iff in Hf.
    destruct Hf as [Hf _]. destruct (find_cat (p ++ cat_close)) as [c|] eqn:Ec;
      [|discriminate].
    cbn [differs] in Hf. apply negb_false_iff, str_eqb_true in Hf.
    exact (yield_whole_te _ _ _ Hnl Ec Hf).
Qed.

(** X2. The trailing region, line by line: a line met in the trailing
    state leaves the state trailing exactly when it is whitespace only,
    or one category marker with nothing but whitespace around it. *)
Theorem trailing_line_iff (st : scan_state) (line : str) :
  should_be_moving st = false -> no_newline line = true ->
  (should_be_moving (line_step st line) = false <-> te_shape line).
Proof.
  intros Hm Hnl. rewrite line_step_flips, Hm. cbn [orb]. split.
  - now apply quiet_te_shape_any.
  - apply te_shape_quiet.
Qed.

Lemma trailing_line_iff_witness :
  let line := lit "  [[Category:A]] " in
  should_be_moving (init_state line) = false
  /\ no_newline line = true
  /\ (should_be_moving (line_step (init_state line) line) = false
      <-> te_shape line).
Proof.
  cbv zeta. split; [reflexivity|]. split; [reflexivity|].
  apply trailing_line_iff; reflexivity.
Defined.

(** ** The fragments find every marker *)

Lemma cat_close_not_nil : cat_close <> [].
Proof. discriminate. Qed.

Lemma all_cats_cons (c : N) (s : str) :
  all_cats (c :: s)
  = match match_cat (c :: s) with
    | Some m => m :: all_cats s
    | None => all_cats s
    end.
Proof. reflexivity. Qed.

(** A text that starts with a marker: its first piece is the marker
    without its closing pair. *)
Lemma match_cat_split (c : N) (r m : str) :
  match_cat (c :: r) = Some m ->
  exists name post,
    m = marker name /\ no_bracket name = true /\ c = lbracket
    /\ r = (lbracket :: cat_prefix ++ name) ++ cat_close ++ post
    /\ split cat_close r = (lbracket :: cat_prefix ++ name) :: split cat_close post.
Proof.
  intros H. destruct (match_cat_some _ _ H) as (name & post & -> & Heq & Hn).
  rewrite marker_unfold in Heq. change (lit "Category:") with cat_prefix in Heq.
  assert (Hr : lbracket :: (cat_prefix ++ name ++ cat_close) ++ post
               = (lbracket :: cat_prefix ++ name) ++ cat_close ++ post)
    by (cbn [app]; now rewrite <- !app_assoc).
  remember ((cat_prefix ++ name ++ cat_close) ++ post) as rest eqn:Hrest.
  injection Heq as -> ->. rewrite Hr.
  exists name, post. repeat split; auto.
  apply split_close_pre. unfold no_close. cbn [forallb].
  rewrite forallb_app. fold (no_close name).
  now rewrite (no_bracket_no_close _ Hn).
Qed.

Lemma yield_marker (name : str) :
  no_bracket name = true -> yield (marker name) = [marker name].
Proof.
  intros Hn. unfold yield. rewrite <- (app_nil_r (marker name)) at 1.
  rewrite find_cat_marker by assumption. now destruct (no_newline name).
Qed.

Lemma yield_marker_tail (name : str) :
  no_bracket name = true ->
  yield ((lbracket :: cat_prefix ++ name) ++ cat_close) = [].
Proof.
  intros Hn. unfold yield. cbn [app].
  assert (Ho : no_open ((cat_prefix ++ name) ++ cat_close) = true).
  { unfold no_open. rewrite !forallb_app.
    now rewrite (no_bracket_no_open _ Hn). }
  rewrite find_cat_cons by discriminate.
  now rewrite find_cat_no_open, match_cat_open_one.
Qed.

(** The categories the fragments of a line yield are the markers the
    line holds, from left to right. *)
Lemma cats_of_all (line : str) :
  no_newline line = true -> cats_of line = all_cats line.
Proof.
  unfold cats_of, split_into_cats. rewrite removelast_map.
  induction line as [|r IH|c r Hc IH] using (pattern_ind cat_close cat_close_not_nil);
    intros Hnl.
  - reflexivity.
  - rewrite no_newline_app in Hnl. apply andb_true_iff in Hnl.
    destruct Hnl as [_ Hnl]. specialize (IH Hnl).
    rewrite split_hit by discriminate.
    destruct (split cat_close r) as [|p ps] eqn:E; [now destruct (split_not_nil _ _ E)|].
    change (removelast ([] :: p :: ps)) with ([] :: removelast (p :: ps)).
    cbn [map flat_map]. transitivity (all_cats r); [exact IH|reflexivity].
  - cbn [no_newline forallb] in Hnl. apply andb_true_iff in Hnl.
    destruct Hnl as [Hcn Hnl]. apply negb_true_iff, N.eqb_neq in Hcn.
    specialize (IH Hnl). rewrite split_miss by assumption.
    rewrite all_cats_cons.
    destruct (split cat_close r) as [|p ps] eqn:E; [now destruct (split_not_nil _ _ E)|].
    destruct ps as [|q qs].
    + cbn [cons_hd removelast map flat_map] in *.
      destruct (match_cat (c :: r)) as [m|] eqn:Em; [|exact IH].
      destruct (match_cat_split _ _ _ Em) as (name & post & _ & _ & _ & _ & Hs).
      rewrite E in Hs. injection Hs as _ Hs. symmetry in Hs.
      now apply split_not_nil in Hs.
    + change (removelast (cons_hd c (p :: q :: qs)))
        with ((c :: p) :: removelast (q :: qs)).
      change (removelast (p :: q :: qs)) with (p :: removelast (q :: qs)) in IH.
      cbn [map flat_map] in *.
      destruct (match_cat (c :: r)) as [m|] eqn:Em.
      * destruct (match_cat_split _ _ _ Em) as (name & post & -> & Hn & -> & _ & Hs).
        rewrite E in Hs. injection Hs as -> _.
        match type of IH with
        | ?y ++ _ = _ =>
            change y with (yield ((lbracket :: cat_prefix ++ name) ++ cat_close))
              in IH
        end.
        rewrite yield_marker_tail in IH by assumption. cbn [app] in IH.
        rewrite <- IH.
        match goal with
        | |- ?y ++ _ = _ =>
            change y with (yield (marker name))
        end.
        now rewrite yield_marker.
      * rewrite <- IH. f_equal. unfold yield. cbn [app].
        rewrite find_cat_cons by assumption.
        destruct (find_cat (p ++ cat_close)) as [m|]; [reflexivity|].
        destruct (match_cat (c :: p ++ cat_close)) as [m|] eqn:Ef; [|reflexivity].
        exfalso. destruct (split_cons_inv cat_close r p (q :: qs))
          as (s' & -> & _); [discriminate|exact E|discriminate|].
        destruct (match_cat_some _ _ Ef) as (name & post & -> & Heq & Hn).
        replace (c :: p ++ cat_close ++ s')
          with (marker name ++ post ++ s') in Em
          by (rewrite app_assoc, <- Heq; cbn [app]; now rewrite <- app_assoc).
        now rewrite match_cat_marker in Em.
Qed.

(** X3. On a line, cutting into fragments and extracting from each one
    finds every category marker the line holds, once each and from left
    to right; in the content state the scan of the line collects all of
    them. *)
Theorem fragments_find_all (st : scan_state) (line : str) :
  no_newline line = true ->
  flat_map yield (removelast (split_into_cats line)) = all_cats line
  /\ (should_be_moving st = true ->
      detected_categories (line_step st line)
      = detected_categories st ++ all_cats line).
Proof.
  intros Hnl. pose proof (cats_of_all line Hnl) as H. split; [exact H|].
  intros Hm. now rewrite line_step_content, H.
Qed.

Lemma fragments_find_all_witness :
  let line := lit "a [[Category:A]] b [[x]] [[Category:B]]] c" in
  let st := {| should_be_moving := true; detected_categories := [];
               page_text := line |} in
  no_newline line = true
  /\ detected_categories (line_step st line)
     = [lit "[[Category:A]]"; lit "[[Category:B]]"].
Proof.
  cbv zeta. split; [reflexivity|].
  destruct (fragments_find_all
              {| should_be_moving := true; detected_categories := [];
                 page_text := lit "a [[Category:A]] b [[x]] [[Category:B]]] c" |}
              (lit "a [[Category:A]] b [[x]] [[Category:B]]] c") eq_refl)
    as [_ H].
  rewrite (H eq_refl). reflexivity.
Defined.

(** ** What the scan collects *)

Lemma line_step_flip_content_any (st : scan_state) (l : str) :
  no_newline l = true -> flips_line l = true ->
  detected_categories (line_step st l) = detected_categories st ++ cats_of l.
Proof.
  intros Hnl Hflip. destruct (should_be_moving st) eqn:Hm;
    [now apply line_step_content|].
  unfold line_step, cats_of. rewrite tail_step_detected.
  destruct (removelast (split_into_cats l)) as [|f fs];
    [cbn; now rewrite app_nil_r|].
  cbn [fold_left flat_map].
  assert (Hd : differs (strip l) (find_cat f) = true).
  { destruct (differs _ _) eqn:Hd; [reflexivity|exfalso].
    destruct (find_cat f) as [c|] eqn:Ec; [|discriminate].
    cbn [differs] in Hd. apply negb_false_iff, str_eqb_true in Hd.
    rewrite (te_shape_quiet _ (yield_whole_te _ _ _ Hnl Ec Hd)) in Hflip.
    discriminate. }
  destruct (frag_step_flip l st f Hd) as [Hm' Hdet].
  rewrite frag_fold_content by exact Hm'. now rewrite Hdet, <- app_assoc.
Qed.

Lemma scan_trailing_any (ls : list str) (st : scan_state) :
  Forall (fun l => no_newline l = true) ls -> should_be_moving st = false ->
  detected_categories (fold_left line_step ls st)
  = detected_categories st ++ flat_map cats_of (drop_trailing ls).
Proof.
  intros Hls. revert st. induction Hls as [|l ls Hl _ IH]; intros st Hm.
  - cbn. now rewrite app_nil_r.
  - cbn [fold_left drop_trailing]. destruct (flips_line l) eqn:Ef.
    + rewrite scan_content by now rewrite line_step_flips, Ef, orb_true_r.
      rewrite line_step_flip_content_any by assumption.
      cbn [flat_map]. now rewrite <- app_assoc.
    + rewrite IH by now rewrite line_step_flips, Hm, Ef.
      now rewrite line_step_trailing by now rewrite line_step_flips, Hm, Ef.
Qed.

Lemma drop_trailing_forall {P : str -> Prop} (ls : list str) :
  Forall P ls -> Forall P (drop_trailing ls).
Proof.
  induction 1 as [|l ls Hl Hls IH]; [constructor|].
  cbn [drop_trailing]. destruct (flips_line l); [now constructor|exact IH].
Qed.

Lemma flat_map_cats_all (ls : list str) :
  Forall (fun l => no_newline l = true) ls ->
  flat_map cats_of ls = flat_map all_cats ls.
Proof.
  induction 1 as [|l ls Hl _ IH]; [reflexivity|].
  cbn [flat_map]. now rewrite IH, cats_of_all.
Qed.

Lemma scan_detected (text : str) :
  detected_categories (scan text)
  = flat_map all_cats (drop_trailing (rev (split [nl] text))).
Proof.
  pose proof (Forall_rev (split_nl_lines text)) as Hnl.
  unfold scan. rewrite scan_trailing_any by (auto; reflexivity).
  cbn [init_state detected_categories app].
  now apply flat_map_cats_all, drop_trailing_forall.
Qed.

(** X4. What the scan collects, for every page: with the lines read
    from the last to the first, and the lines that leave the trailing
    state untouched dropped from the front, the collected list is every
    category marker of the lines that remain, each line from left to
    right. *)
Theorem relocation_set (text : str) :
  detected_categories (scan text)
  = flat_map all_cats (drop_trailing (rev (split [nl] text)))
  /\ (saves text = true
      <-> exists l, In l (drop_trailing (rev (split [nl] text)))
                    /\ all_cats l <> []).
Proof.
  split; [apply scan_detected|].
  unfold saves. rewrite scan_detected.
  generalize (drop_trailing (rev (split [nl] text))). intros ls.
  induction ls as [|l ls IH]; cbn [flat_map].
  - split; [discriminate|]. now intros (l & [] & _).
  - destruct (all_cats l) as [|m ms] eqn:E; cbn [app].
    + rewrite IH. split.
      * intros (l' & Hin & Hne). exists l'. split; [now right|exact Hne].
      * intros (l' & [<-|Hin] & Hne); [congruence|]. now exists l'.
    + split; [|reflexivity]. intros _. exists l. split; [now left|congruence].
Qed.

Lemma in_drop_trailing (l : str) (ls : list str) :
  In l ls -> In l (drop_trailing ls) \/ flips_line l = false.
Proof.
  induction ls as [|x ls IH]; [easy|]. cbn [drop_trailing].
  destruct (flips_line x) eqn:E; [now left|].
  intros [<-|H]; [now right|auto].
Qed.

Lemma all_cats_marker (name : str) :
  no_bracket name = true -> In (marker name) (all_cats (marker name)).
Proof.
  intros Hn. pose proof (match_cat_marker name [] Hn) as H.
  rewrite app_nil_r in H. rewrite marker_unfold_nil in H |- * at 2.
  rewrite all_cats_cons, H. now left.
Qed.

(** The one marker of a line of the trailing shape. *)
Lemma all_cats_te (l m : str) :
  te_shape l -> no_newline l = true -> In m (all_cats l) ->
  exists a b z,
    l = a ++ bracketed b ++ z /\ m = bracketed b /\ no_bracket b = true
    /\ all_space a = true /\ all_space z = true.
Proof.
  intros Hte Hnl. rewrite <- cats_of_all by assumption.
  destruct Hte as [t Ht|a b z Ha Hz Hn Hb Hc].
  - change t with (render [] t) in Hnl |- *.
    rewrite cats_of_render; [easy|exact (all_space_no_bracket _ Ht)|exact Hnl].
  - rewrite <- render_one in Hnl |- *. rewrite cats_of_render; [|  |exact Hnl].
    + cbn [seg_cats flat_map snd]. rewrite Hc. intros [<-|[]].
      exists a, b, z. rewrite render_one. auto.
    + rewrite line_ok_cons. change (line_ok [] z) with (no_bracket z).
      cbn [fst snd].
      now rewrite Hb, (all_space_no_bracket _ Ha), (all_space_no_bracket _ Hz).
Qed.

Lemma in_app_repeat_nil (init : list str) (k : nat) (l : str) :
  In l (init ++ repeat [] k) -> l <> [] -> In l init.
Proof.
  intros H Hl. apply in_app_or in H. destruct H as [H|H]; [exact H|].
  apply repeat_spec in H. congruence.
Qed.

(** X5. No category is lost: a category marker that a line of the page
    holds is held by a line of the text [move_cats] leaves, whether the
    marker was relocated or was trailing. *)
Theorem no_category_lost (text l m : str) :
  In l (split [nl] text) -> In m (all_cats l) ->
  exists l', In l' (split [nl] (move_text text)) /\ In m (all_cats l').
Proof.
  intros Hl Hm.
  destruct (move_text_lines text) as (init & k & Hout & Hmap).
  pose proof (scan_is_cat text) as Hcat. pose proof (scan_detected text) as Hdet.
  assert (Hnl : no_newline l = true).
  { pose proof (split_nl_lines text) as H. rewrite Forall_forall in H. auto. }
  assert (Hrel : In m (detected_categories (scan text)) ->
                 exists l', In l' (split [nl] (move_text text))
                            /\ In m (all_cats l')).
  { intros Hin. exists m. split; [rewrite Hout; apply in_or_app; now right|].
    rewrite Forall_forall in Hcat. destruct (Hcat m Hin) as (name & -> & Hn & _).
    now apply all_cats_marker. }
  destruct (in_drop_trailing l (rev (split [nl] text))) as [Hin|Hq];
    [now apply in_rev in Hl| |].
  - apply Hrel. rewrite Hdet. apply in_flat_map. now exists l.
  - destruct (in_dec (list_eq_dec N.eq_dec) m (detected_categories (scan text)))
      as [Hin|Hnot]; [now apply Hrel|].
    destruct (all_cats_te l m (quiet_te_shape_any l Hnl Hq) Hnl Hm)
      as (a & b & z & Heq & -> & Hb & Ha & Hz).
    exists l. split; [|exact Hm]. rewrite Hout. apply in_or_app. left.
    apply in_app_repeat_nil with k.
    + rewrite <- Hmap. apply in_map_iff. exists l. split; [|exact Hl].
      rewrite Heq. apply remove_all_pair_other; auto.
      eapply Forall_impl; [|exact Hcat]. apply is_cat_is_pair.
    + rewrite Heq, bracketed_cons. now destruct a.
Qed.

Lemma no_category_lost_witness :
  let text := unlines [lit "[[Category:Y]] a [[Category:X]]";
                       lit "[[Category:Y]]"; lit ""] in
  In (lit "[[Category:Y]]") (split [nl] text)
  /\ In (lit "[[Category:Y]]") (all_cats (lit "[[Category:Y]]"))
  /\ exists l', In l' (split [nl] (move_text text))
                /\ In (lit "[[Category:Y]]") (all_cats l').
Proof.
  cbv zeta. split; [right; left; reflexivity|]. split; [left; reflexivity|].
  apply (no_category_lost
           (unlines [lit "[[Category:Y]] a [[Category:X]]";
                     lit "[[Category:Y]]"; lit ""])
           (lit "[[Category:Y]]") (lit "[[Category:Y]]")).
  - right. left. reflexivity.
  - left. reflexivity.
Defined.

Lemma remove_all_no_open (ds : list str) (l : str) :
  Forall is_pair ds -> no_open l = true -> remove_all ds l = l.
Proof.
  intros Hds Hl. induction Hds as [|d ds (bd & -> & _) _ IH]; [reflexivity|].
  cbn [remove_all fold_left]. fold (remove_all ds).
  now rewrite bracketed_cons, replace_no_open.
Qed.

(** X6. Text without an opening bracket is never altered: a line of the
    page that holds no opening bracket, and is not empty, is found
    unchanged at the same place among the lines of the text [move_cats]
    leaves. *)
Theorem plain_line_kept (text : str) (before : list str) (l : str)
    (after : list str) :
  split [nl] text = before ++ l :: after ->
  no_open l = true -> l <> [] ->
  nth_error (split [nl] (move_text text)) (length before) = Some l.
Proof.
  intros Hsplit Ho Hne.
  destruct (move_text_lines text) as (init & k & Hout & Hlines).
  assert (Hn : nth_error (init ++ repeat [] k) (length before) = Some l).
  { rewrite <- Hlines, Hsplit, map_app. cbn [map].
    rewrite remove_all_no_open; auto.
    - rewrite nth_error_app2 by (rewrite length_map; lia).
      now rewrite length_map, Nat.sub_diag.
    - eapply Forall_impl; [|apply scan_is_cat]. apply is_cat_is_pair. }
  apply nth_error_app_repeat_nil in Hn; [|exact Hne].
  rewrite Hout. rewrite nth_error_app1; [exact Hn|].
  apply nth_error_Some. congruence.
Qed.

Lemma plain_line_kept_witness :
  let text := unlines [lit "Intro [[Category:X]]"; lit "Middle ]] content.";
                       lit "[[Category:Y]]"] in
  split [nl] text
  = [lit "Intro [[Category:X]]"] ++ lit "Middle ]] content."
      :: [lit "[[Category:Y]]"]
  /\ no_open (lit "Middle ]] content.") = true
  /\ lit "Middle ]] content." <> []
  /\ nth_error (split [nl] (move_text text)) 1 = Some (lit "Middle ]] content.").
Proof.
  cbv zeta. split; [reflexivity|]. split; [reflexivity|].
  split; [discriminate|].
  apply (plain_line_kept
           (unlines [lit "Intro [[Category:X]]"; lit "Middle ]] content.";
                     lit "[[Category:Y]]"])
           [lit "Intro [[Category:X]]"] (lit "Middle ]] content.")
           [lit "[[Category:Y]]"]); [reflexivity|reflexivity|discriminate].
Defined.

(** X7. A page none of whose lines holds a category marker is left as
    it is: nothing is collected and the page is not saved. *)
Theorem no_marker_no_save (text : str) :
  (forall l, In l (split [nl] text) -> all_cats l = []) ->
  detected_categories (scan text) = []
  /\ saves text = false
  /\ move_cats text = text.
Proof.
  intros H.
  assert (Hd : detected_categories (scan text) = []).
  { rewrite scan_detected.
    assert (Hall : Forall (fun l => all_cats l = [])
                     (drop_trailing (rev (split [nl] text)))).
    { apply drop_trailing_forall, Forall_rev, Forall_forall. exact H. }
    induction Hall as [|l ls Hl _ IH]; [reflexivity|].
    cbn [flat_map]. now rewrite Hl, IH. }
  assert (Hs : saves text = false) by (unfold saves; now rewrite Hd).
  repeat split; auto. unfold move_cats. now rewrite Hs.
Qed.

Lemma no_marker_no_save_witness :
  let text := unlines [lit "Some [[link]] text"; lit "[[Category:"; lit ""; lit ""] in
  (forall l, In l (split [nl] text) -> all_cats l = [])
  /\ move_cats text = text.
Proof.
  cbv zeta.
  assert (H : forall l,
             In l (split [nl] (unlines [lit "Some [[link]] text";
                                        lit "[[Category:"; lit ""; lit ""])) ->
             all_cats l = []).
  { intros l [<-|[<-|[<-|[<-|[]]]]]; reflexivity. }
  split; [exact H|].
  exact (proj2 (proj2 (no_marker_no_save _ H))).
Defined.

(** ** [is_reference_line] *)

Lemma match_reflist_iff (line : str) :
  match_reflist line = true
  <-> exists pre post, line = pre ++ reflist ++ post /\ no_newline pre = true.
Proof.
  induction line as [|c line IH].
  - split; [discriminate|]. intros (pre & post & H & _).
    symmetry in H. apply app_eq_nil in H. now destruct H as [_ H].
  - cbn [match_reflist]. rewrite orb_true_iff. split.
    + intros [H|H].
      * destruct (c =? nl) eqn:Ec; [discriminate|].
        apply IH in H. destruct H as (pre & post & -> & Hp).
        exists (c :: pre), post. split; [reflexivity|].
        cbn [no_newline forallb]. now rewrite Ec.
      * destruct (starts_with_inv _ _ H) as [post Hpost].
        exists [], post. now split.
    + intros (pre & post & H & Hp). destruct pre as [|x pre].
      * right. cbn [app] in H. rewrite H. apply starts_with_app.
      * left. injection H as -> H. cbn [no_newline forallb] in Hp.
        apply andb_true_iff in Hp. destruct Hp as [Hx Hp].
        apply negb_true_iff in Hx. rewrite Hx. apply IH. now exists pre, post.
Qed.

(** X8. [is_reference_line] holds of a line exactly when the line in
    lower case is one of the four headings, character for character,
    with no other text and no other spacing, or holds [{{reflist]
    before its first newline. *)
Theorem is_reference_line_iff (lower : str -> str) (line : str) :
  is_reference_line lower line = true
  <-> In (lower line) valid_reference_titles
      \/ exists pre post,
           lower line = pre ++ reflist ++ post /\ no_newline pre = true.
Proof.
  unfold is_reference_line. cbv zeta.
  destruct (existsb (str_eqb (lower line)) valid_reference_titles) eqn:E.
  - split; [intros _; left|reflexivity].
    apply existsb_exists in E. destruct E as (t & Ht & Heq).
    apply str_eqb_true in Heq. congruence.
  - rewrite match_reflist_iff. split; [now right|]. intros [H|H]; [|exact H].
    exfalso. assert (E' : existsb (str_eqb (lower line)) valid_reference_titles
                          = true).
    { apply existsb_exists. exists (lower line). split; [exact H|].
      apply str_eqb_refl. }
    congruence.
Qed.

(** ** The batch runner *)

Lemma save_same (w : wiki) (title text : str) : save w title text title = text.
Proof. unfold save. now rewrite str_eqb_refl. Qed.

Lemma save_other (w : wiki) (title text t : str) :
  t <> title -> save w title text t = w t.
Proof. intros H. unfold save. apply str_eqb_false in H. now rewrite H. Qed.

Lemma move_cats_page_same (w : wiki) (page_name : str) :
  move_cats_page w page_name page_name = move_cats (w page_name).
Proof.
  unfold move_cats_page, move_cats.
  destruct (saves (w page_name)); [apply save_same|reflexivity].
Qed.

Lemma move_cats_page_other (w : wiki) (page_name t : str) :
  t <> page_name -> move_cats_page w page_name t = w t.
Proof.
  intros H. unfold move_cats_page.
  destruct (saves (w page_name)); [now apply save_other|reflexivity].
Qed.

Lemma run_loop_cons (p : str) (ps : list str) (x : str) (w : wiki) :
  run_loop (p :: ps) x w = run_loop ps p (move_cats_page w p).
Proof. reflexivity. Qed.

Lemma last_default {A} (a : A) (l : list A) (d d' : A) :
  last (a :: l) d = last (a :: l) d'.
Proof.
  revert a. induction l as [|b l IH]; intros a; [reflexivity|].
  cbn [last] in *. apply IH.
Qed.

Lemma run_loop_last (ps : list str) (x : str) (w : wiki) :
  fst (run_loop ps x w) = last ps x.
Proof.
  revert x w. induction ps as [|p ps IH]; intros x w; [reflexivity|].
  rewrite run_loop_cons, IH. destruct ps as [|q qs]; [reflexivity|].
  cbn [last]. apply last_default.
Qed.

Lemma run_loop_other (ps : list str) (x : str) (w : wiki) (t : str) :
  ~ In t ps -> snd (run_loop ps x w) t = w t.
Proof.
  revert x w. induction ps as [|p ps IH]; intros x w H; [reflexivity|].
  rewrite run_loop_cons, IH by (intros Hin; apply H; now right).
  apply move_cats_page_other. intros ->. apply H. now left.
Qed.

Lemma run_loop_moved (ps : list str) (x : str) (w : wiki) (t : str) :
  NoDup ps -> In t ps -> snd (run_loop ps x w) t = move_cats (w t).
Proof.
  revert x w. induction ps as [|p ps IH]; intros x w Hnd Hin; [easy|].
  inversion Hnd as [|? ? Hp Hnd']; subst. rewrite run_loop_cons.
  destruct Hin as [->|Hin].
  - rewrite run_loop_other by assumption. apply move_cats_page_same.
  - rewrite IH by assumption. f_equal. apply move_cats_page_other.
    intros ->. contradiction.
Qed.

Lemma run_unfold (pages_from : wiki -> str -> list str) (ref : str)
    (w : wiki) :
  let pages := pages_from w (get_page_start ref w) in
  run pages_from ref w
  = set_page_start ref (snd (run_loop pages [] w))
      (if (length pages <? PAGES_TO_GO_THROUGH)%nat then []
       else fst (run_loop pages [] w)).
Proof.
  cbv zeta. unfold run.
  destruct (run_loop _ [] w) as [last_seen w'].
  now destruct (_ <? _)%nat.
Qed.

(** X9. The cursor a run leaves: the reference page holds the empty
    text when the batch had fewer than 25 pages, none included, and the
    title of the last page of the batch otherwise, whatever the run did
    to the reference page as a page of the batch; titles holding no
    newline, the next run reads this very cursor back. *)
Theorem run_cursor (pages_from : wiki -> str -> list str) (ref : str)
    (w : wiki) :
  let pages := pages_from w (get_page_start ref w) in
  let cursor :=
    if (length pages <? PAGES_TO_GO_THROUGH)%nat then [] else last pages [] in
  run pages_from ref w ref = cursor
  /\ (Forall (fun t => no_newline t = true) pages ->
      get_page_start ref (run pages_from ref w) = cursor).
Proof.
  cbv zeta. rewrite run_unfold. cbv zeta. rewrite run_loop_last.
  unfold set_page_start, get_page_start. rewrite save_same.
  split; [reflexivity|]. intros Hnl.
  destruct (_ <? _)%nat; [reflexivity|].
  rewrite split_nl_one; [reflexivity|].
  destruct (pages_from w _) as [|p ps] eqn:E; [reflexivity|].
  rewrite Forall_forall in Hnl. apply Hnl.
  destruct (@exists_last _ (p :: ps)) as (init & t & Hl); [discriminate|].
  rewrite Hl, last_last. apply in_or_app. right. now left.
Qed.

Lemma run_cursor_witness :
  let pages_from := fun (_ : wiki) (_ : str) => repeat (lit "Page") 25 in
  let w : wiki := fun _ => lit "Old cursor" in
  Forall (fun t => no_newline t = true) (repeat (lit "Page") 25)
  /\ get_page_start (lit "CatMoverBotInfo")
       (run pages_from (lit "CatMoverBotInfo") w) = lit "Page".
Proof.
  cbv zeta.
  assert (H : Forall (fun t => no_newline t = true) (repeat (lit "Page") 25))
    by (apply Forall_forall; intros t Ht; apply repeat_spec in Ht; now subst).
  split; [exact H|].
  exact (proj2 (run_cursor (fun _ _ => repeat (lit "Page") 25)
                  (lit "CatMoverBotInfo") (fun _ => lit "Old cursor")) H).
Defined.

(** X10. What a run does to the pages: a page other than the reference
    page is left as it is when it is not in the batch, and holds the
    result of [move_cats] on its text when it is in the batch, the
    batch listing no title twice. *)
Theorem run_pages (pages_from : wiki -> str -> list str) (ref : str)
    (w : wiki) (t : str) :
  let pages := pages_from w (get_page_start ref w) in
  t <> ref ->
  (~ In t pages -> run pages_from ref w t = w t)
  /\ (NoDup pages -> In t pages ->
      run pages_from ref w t = move_cats (w t)).
Proof.
  cbv zeta. intros Ht. rewrite run_unfold. cbv zeta.
  unfold set_page_start. rewrite save_other by assumption. split.
  - apply run_loop_other.
  - apply run_loop_moved.
Qed.

Lemma run_pages_witness :
  let pages_from := fun (_ : wiki) (_ : str) => [lit "A"; lit "B"] in
  let w : wiki :=
    fun t => if str_eqb t (lit "A") then lit "x [[Category:C]] y" else [] in
  lit "A" <> lit "Ref"
  /\ NoDup [lit "A"; lit "B"] /\ In (lit "A") [lit "A"; lit "B"]
  /\ run pages_from (lit "Ref") w (lit "A")
     = unlines [lit "x  y"; lit "[[Category:C]]"].
Proof.
  cbv zeta. split; [discriminate|].
  assert (Hnd : NoDup [lit "A"; lit "B"]).
  { repeat constructor; cbn; intuition discriminate. }
  split; [exact Hnd|]. split; [now left|].
  rewrite (proj2 (run_pages (fun _ _ => [lit "A"; lit "B"]) (lit "Ref")
                    (fun t => if str_eqb t (lit "A")
                              then lit "x [[Category:C]] y" else [])
                    (lit "A") ltac:(discriminate)) Hnd (or_introl eq_refl)).
  reflexivity.
Defined.

(** ** After the move *)

Lemma scan_te_trailing (tes : list str) (st : scan_state) :
  Forall te_shape tes -> should_be_moving st = false ->
  should_be_moving (fold_left line_step tes st) = false.
Proof.
  intros Htes. revert st. induction Htes as [|l tes Hl _ IH]; intros st Hm;
    [exact Hm|].
  cbn [fold_left]. apply IH. now rewrite line_step_flips, Hm, te_shape_quiet.
Qed.

Lemma drop_trailing_te (tes ls : list str) :
  Forall te_shape tes -> drop_trailing (tes ++ ls) = drop_trailing ls.
Proof.
  induction 1 as [|l tes Hl _ IH]; [reflexivity|].
  cbn [app drop_trailing]. now rewrite te_shape_quiet.
Qed.

(** X11. The relocated categories are trailing in the result, on every
    page: the text [move_cats] leaves ends with the collected
    categories, one per line, and a scan of that text passes all of
    them in the trailing state. *)
Theorem relocated_are_trailing (text : str) :
  let ds := detected_categories (scan text) in
  let out := move_text text in
  exists init,
    split [nl] out = init ++ ds
    /\ should_be_moving (fold_left line_step (rev ds) (init_state out)) = false
    /\ drop_trailing (rev (split [nl] out)) = drop_trailing (rev init).
Proof.
  cbv zeta. destruct (move_text_lines text) as (init & k & Hout & _).
  assert (Hte : Forall te_shape (rev (detected_categories (scan text)))).
  { apply Forall_rev. eapply Forall_impl; [|apply scan_is_cat].
    apply is_cat_te_shape. }
  exists init. split; [exact Hout|]. split.
  - now apply scan_te_trailing.
  - rewrite Hout, rev_app_distr. now apply drop_trailing_te.
Qed.

Lemma flat_map_nil {A B} (f : A -> list B) (l : list A) :
  flat_map f l = [] -> forall x, In x l -> f x = [].
Proof.
  induction l as [|a l IH]; [easy|]. cbn [flat_map]. intros H.
  apply app_eq_nil in H. destruct H as [Ha Hl].
  intros x [<-|Hx]; auto.
Qed.

(** X12. On a page of simple bracket pairs the move does what it is
    for: in the text it leaves, every category marker is in the trailing
    region; no line from the first one that ends the trailing state on,
    reading from the bottom, holds a marker. *)
Theorem all_categories_at_bottom (text : str) :
  simple_doc text = true ->
  forall l,
    In l (drop_trailing (rev (split [nl] (move_text text)))) ->
    all_cats l = [].
Proof.
  intros Hs. apply flat_map_nil. rewrite <- scan_detected.
  now apply second_scan_empty.
Qed.

Lemma all_categories_at_bottom_witness :
  let text := unlines [lit "Intro [[Category:X]] text"; lit "[[Category:Y]] more";
                       lit "[[Category:Z]]"] in
  simple_doc text = true
  /\ drop_trailing (rev (split [nl] (move_text text)))
     = [lit " more"; lit "Intro  text"]
  /\ forall l,
       In l (drop_trailing (rev (split [nl] (move_text text)))) ->
       all_cats l = [].
Proof.
  cbv zeta. split; [reflexivity|]. split; [reflexivity|].
  apply (all_categories_at_bottom
           (unlines [lit "Intro [[Category:X]] text"; lit "[[Category:Y]] more";
                     lit "[[Category:Z]]"])).
  reflexivity.
Defined.

(** ** Whitespace at the end of the page *)

(** C9 (the code at the failing input). A line of spaces is blank for
    the scan, which strips each line of whitespace and keeps the
    trailing state on it; the strip before the append removes newline
    characters only and keeps that line.  The relocated block then
    follows a blank line, not the last content of the page. *)
Theorem trailing_blank_line_kept :
  let text := unlines [lit "a [[Category:A]]"; lit " "; lit ""; lit ""] in
  strip (lit " ") = []
  /\ flips_line (lit " ") = false
  /\ detected_categories (scan text) = [lit "[[Category:A]]"]
  /\ page_text (scan text) = unlines [lit "a "; lit " "; lit ""; lit ""]
  /\ rstrip_nl (page_text (scan text)) = unlines [lit "a "; lit " "]
  /\ move_text text = unlines [lit "a "; lit " "; lit "[[Category:A]]"]
  /\ move_text text <> unlines [lit "a "; lit "[[Category:A]]"].
Proof. vm_compute. repeat split. discriminate. Qed.
